(** * Verification of the virtualized-table harvester (scrape_vvvfast.py)

    A shallow embedding of [extract_new_products], [scroll_and_collect_all]
    and the target-count detection of [main], together with the browser-side
    scripts they pass to [page.evaluate], and the properties of the
    specification stated and settled against them; then the navigation
    helpers [is_logged_in], [try_login], [click_button_by_text],
    [complete_step] and [find_table_container] over an arbitrary browser,
    and further properties of all of these read off the code. *)

From Stdlib Require Import ZArith NArith QArith Ascii String List Bool Lia.
From stdpp Require Import gmap strings list.
Import ListNotations.

Local Open Scope Z_scope.

(* stdpp's set solver clears hypotheses by name and warns when one is gone. *)
Set Warnings "-clear-no-such-hyp".

(** ** The rendered document, as the scripts see it *)

(** An element, with the properties the scripts read and write.  [tagName] is
    the lower-case local name, [overflowY] is what
    [getComputedStyle(e).overflowY] returns.  The two heights are non-negative
    integers in the DOM; [scrollTop] is a signed number. *)
Record Element := mkElement {
  nodeId : nat;
  tagName : string;
  overflowY : string;
  scrollTop : Z;
  scrollHeight : N;
  clientHeight : N
}.

(** A [tr] under the table body: [offsetParent] is the node id of its offset
    parent ([None] for JavaScript's [null]: not laid out), [tdTexts] the
    [innerText] of its [td] descendants in document order. *)
Record Row := mkRow {
  offsetParent : option nat;
  tdTexts : list string
}.

(** The element matched by the table selector with its surroundings:
    [ancestors] is the chain of [parentElement]s, nearest first, up to the
    root element; [inner] lists the descendant elements in document order;
    [bodyRows] is the result of [querySelectorAll('tbody tr')]. *)
Record Table := mkTable {
  self : Element;
  ancestors : list Element;
  inner : list Element;
  bodyRows : list Row
}.

(** A page: the identity of [document.body], and [document.querySelector]. *)
Record Page := mkPage {
  bodyId : nat;
  querySelector : string -> option Table
}.

(** ** JavaScript helpers *)

(** Text is held as the bytes of its UTF-8 encoding.  [String.prototype.trim]
    strips from both ends the white space and the line terminators of
    ECMAScript: U+0009 to U+000D and U+0020 (one byte each), U+00A0 (two
    bytes), and U+1680, U+2000 to U+200A, U+2028, U+2029, U+202F, U+205F,
    U+3000 and U+FEFF (three bytes each). *)
Definition one_byte_space (a : ascii) : bool :=
  let x := nat_of_ascii a in
  ((9 <=? x) && (x <=? 13) || (x =? 32))%nat.

Definition two_byte_space (a b : ascii) : bool :=
  ((nat_of_ascii a =? 194) && (nat_of_ascii b =? 160))%nat.

Definition three_byte_space (a b c : ascii) : bool :=
  let x := nat_of_ascii a in
  let y := nat_of_ascii b in
  let z := nat_of_ascii c in
  ((x =? 225) && (y =? 154) && (z =? 128)
   || (x =? 226) && (y =? 128)
      && ((128 <=? z) && (z <=? 138) || (z =? 168) || (z =? 169) || (z =? 175))
   || (x =? 226) && (y =? 129) && (z =? 159)
   || (x =? 227) && (y =? 128) && (z =? 128)
   || (x =? 239) && (y =? 187) && (z =? 191))%nat.

(** Stripping reads the bytes from one end: forwards from the start, and
    backwards from the end, where the bytes of a character come last byte
    first.  [two] and [three] tell the characters of two and three bytes in
    the order in which they are read. *)
Section Strip.
Variable two : ascii -> ascii -> bool.
Variable three : ascii -> ascii -> ascii -> bool.

(** Whether the bytes start with a stripped character. *)
Definition space_ahead (l : list ascii) : bool :=
  match l with
  | a :: l1 =>
      one_byte_space a
      || match l1 with
         | b :: l2 =>
             two a b
             || match l2 with
                | c :: _ => three a b c
                | [] => false
                end
         | [] => false
         end
  | [] => false
  end.

Fixpoint drop_spaces (l : list ascii) : list ascii :=
  match l with
  | a :: l1 =>
      if one_byte_space a then drop_spaces l1
      else match l1 with
           | b :: l2 =>
               if two a b then drop_spaces l2
               else match l2 with
                    | c :: l3 => if three a b c then drop_spaces l3 else l
                    | [] => l
                    end
           | [] => l
           end
  | [] => []
  end.

End Strip.

Definition drop_leading : list ascii -> list ascii :=
  drop_spaces two_byte_space three_byte_space.

(** Read backwards, the last byte of a character comes first. *)
Definition two_bytes_back (b a : ascii) : bool := two_byte_space a b.

Definition three_bytes_back (c b a : ascii) : bool := three_byte_space a b c.

Definition drop_trailing : list ascii -> list ascii :=
  drop_spaces two_bytes_back three_bytes_back.

Definition trim (s : string) : string :=
  string_of_list_ascii
    (rev (drop_trailing (rev (drop_leading (list_ascii_of_string s))))).

(** The browser's [scrollTop] setter clamps the value to the scrollable
    range of the element. *)
Definition max_scroll (e : Element) : Z :=
  Z.of_N (scrollHeight e) - Z.of_N (clientHeight e).

Definition set_scrollTop (v : Z) (e : Element) : Element :=
  mkElement (nodeId e) (tagName e) (overflowY e)
            (Z.max 0 (Z.min v (max_scroll e)))
            (scrollHeight e) (clientHeight e).

(** [(oy === 'auto' || oy === 'scroll') && e.scrollHeight > e.clientHeight + 1] *)
Definition scrollable (e : Element) : bool :=
  (String.eqb (overflowY e) "auto" || String.eqb (overflowY e) "scroll")
  && (N.ltb (clientHeight e + 1) (scrollHeight e)).

(** The upward loop of [getScroller]:
    [while (node && node !== document.body) { ...; node = node.parentElement }]
    run over the node and its chain of parents. *)
Fixpoint climb (body : nat) (nodes : list Element) : option Element :=
  match nodes with
  | [] => None
  | node :: up =>
      if Nat.eqb (nodeId node) body then None
      else if scrollable node then Some node
      else climb body up
  end.

Definition is_div (e : Element) : bool := String.eqb (tagName e) "div".

(** [getScroller(table)]: the upward loop, then the first scrollable element
    of [table.querySelectorAll('div')], else [null]. *)
Definition getScroller (body : nat) (table : Table) : option Element :=
  match climb body (self table :: ancestors table) with
  | Some node => Some node
  | None => List.find scrollable (List.filter is_div (inner table))
  end.

(** Assigning to a property of the resolved scroller changes that node
    wherever it is reachable from the table. *)
Definition replace_node (e' : Element) (e : Element) : Element :=
  if Nat.eqb (nodeId e) (nodeId e') then e' else e.

Definition write_node (e' : Element) (t : Table) : Table :=
  mkTable (replace_node e' (self t))
          (List.map (replace_node e') (ancestors t))
          (List.map (replace_node e') (inner t))
          (bodyRows t).

(** The node is one object of the document: whatever selector reaches it
    afterwards sees the value written. *)
Definition write_page (e' : Element) (p : Page) : Page :=
  mkPage (bodyId p) (fun s => write_node e' <$> querySelector p s).

(** ** The three scripts run through [page.evaluate]

    Each takes the page and returns the page it leaves behind together with
    the JSON value handed back to Python. *)

(** Rows read by [extract_new_products] (lines 161-172). *)
Definition visible (r : Row) : bool :=
  match offsetParent r with Some _ => true | None => false end.

Definition rows_script (sel : string) (p : Page) : Page * list (list string) :=
  match querySelector p sel with
  | None => (p, [])
  | Some table =>
      (p, List.map (fun tr => List.map trim (tdTexts tr))
                   (List.filter visible (bodyRows table)))
  end.

(** Reset of the scroller to the top (lines 222-249). *)
Definition reset_script (sel : string) (p : Page) : Page :=
  match querySelector p sel with
  | None => p
  | Some table =>
      match getScroller (bodyId p) table with
      | Some scroller => write_page (set_scrollTop 0 scroller) p
      | None => p
      end
  end.

(** The value returned by the scroll script: [{ok:false, reason}] or
    [{ok:true, prev, now, max}]. *)
Inductive Scrolled :=
| NotOk (reason : string)
| Ok (prev now max : Z).

(** One viewport down (lines 271-306). *)
Definition scroll_script (sel : string) (p : Page) : Page * Scrolled :=
  match querySelector p sel with
  | None => (p, NotOk "no-table")
  | Some table =>
      match getScroller (bodyId p) table with
      | None => (p, NotOk "no-scroller")
      | Some scroller =>
          let prev := scrollTop scroller in
          let max := max_scroll scroller in
          let next := Z.min (prev + Z.of_N (clientHeight scroller)) max in
          let scroller' := set_scrollTop next scroller in
          (write_page scroller' p, Ok prev (scrollTop scroller') max)
      end
  end.

(** ** [extract_new_products] *)

(** The dictionary built for an accepted row; the key ["id"] is [item_id]. *)
Record Item := mkItem {
  item_id : string;
  category : string;
  color : string;
  dimensions : string;
  price : string;
  product : string;
  score : string;
  cells : list string
}.

(** [cells[k] if len(cells) > k else ""] *)
Definition cell_or_empty (k : nat) (cells : list string) : string :=
  if Nat.ltb k (length cells) then default "" (cells !! k) else "".

Definition make_item (row_id : string) (cells : list string) : Item :=
  mkItem row_id
         (cell_or_empty 1 cells) (cell_or_empty 2 cells) (cell_or_empty 3 cells)
         (cell_or_empty 4 cells) (cell_or_empty 5 cells) (cell_or_empty 6 cells)
         cells.

(** The [for cells in rows] loop (lines 174-193), threading the list being
    built and the caller's [seen_ids] set, which the loop updates in place. *)
Fixpoint collect_rows (rows : list (list string)) (seen_ids : gset string)
    (new_items : list Item) : list Item * gset string :=
  match rows with
  | [] => (new_items, seen_ids)
  | cells :: rest =>
      match cells with
      | [] => collect_rows rest seen_ids new_items
      | row_id :: _ =>
          if String.eqb row_id "" || bool_decide (row_id ∈ seen_ids)
          then collect_rows rest seen_ids new_items
          else collect_rows rest ({[row_id]} ∪ seen_ids)
                            (new_items ++ [make_item row_id cells])
      end
  end.

Definition extract_new_products (p : Page) (table_sel : string)
    (seen_ids : gset string) : Page * list Item * gset string :=
  let '(p', rows) := rows_script table_sel p in
  let '(new_items, seen_ids') := collect_rows rows seen_ids [] in
  (p', new_items, seen_ids').

(** ** [scroll_and_collect_all] *)

(** What the page does on its own: its reaction to the focusing click, and
    how it re-renders while the loop waits after round [n]. *)
Record Env := mkEnv {
  click : Page -> Page;
  settle : nat -> Page -> Page
}.

(** The lines the function prints.  The percentage of a progress line is kept
    as the exact quotient the float approximates. *)
Inductive Line :=
| StartingCollection (target_count : Z)
| Progress (collected : nat) (pct : Q)
| Stopping
| CollectionComplete (collected attempts : nat).

Record Loop := mkLoop {
  page : Page;
  products : list Item;
  seen_ids : gset string;
  attempts : nat;
  no_progress_rounds : nat;
  last_count : nat;
  printed : list Line
}.

Definition safety_ceiling : nat := 20 * 1000.

(** [(len(products) / target_count * 100) if target_count else 0] *)
Definition pct_of (collected : nat) (target_count : Z) : Q :=
  if Z.eqb target_count 0 then 0%Q
  else (inject_Z (Z.of_nat collected) / inject_Z target_count * inject_Z 100)%Q.

(** [at_bottom], lines 309-311. *)
Definition at_bottom (scrolled : Scrolled) : bool :=
  match scrolled with
  | Ok _ now max => Z.geb now max
  | NotOk _ => false
  end.

(** [not scrolled.get("ok") or scrolled.get("now") == scrolled.get("prev")] *)
Definition did_not_move (scrolled : Scrolled) : bool :=
  match scrolled with
  | NotOk _ => true
  | Ok prev now _ => Z.eqb now prev
  end.

(** The body of the [while] loop up to and including the decision to
    [break] (lines 252-317); the flag tells whether it broke. *)
Definition round (table_sel : string) (target_count : Z) (st : Loop)
    : Loop * bool :=
  let attempts' := S (attempts st) in
  let '(page1, new_rows, seen') :=
    extract_new_products (page st) table_sel (seen_ids st) in
  let products' :=
    match new_rows with [] => products st | _ => products st ++ new_rows end in
  let '(last_count', no_progress') :=
    if Nat.ltb (last_count st) (length products')
    then (length products', 0%nat)
    else (last_count st, S (no_progress_rounds st)) in
  let printed1 :=
    if Nat.eqb (attempts' mod 25) 0
    then printed st ++ [Progress (length products')
                                 (pct_of (length products') target_count)]
    else printed st in
  let '(page2, scrolled) := scroll_script table_sel page1 in
  let stop :=
    did_not_move scrolled
    && (at_bottom scrolled && Nat.leb 5 no_progress') in
  (mkLoop page2 products' seen' attempts' no_progress' last_count'
          (if stop then printed1 ++ [Stopping] else printed1),
   stop).

(** [await page.wait_for_timeout(200)]: the page re-renders. *)
Definition wait (env : Env) (st : Loop) : Loop :=
  mkLoop (settle env (attempts st) (page st)) (products st) (seen_ids st)
         (attempts st) (no_progress_rounds st) (last_count st) (printed st).

(** The two ways out of the loop: the [break], and the loop condition. *)
Inductive Completion := Exhausted | SafetyCeilingReached.

(** [while attempts < safety_ceiling: ...] *)
Fixpoint while_loop (fuel : nat) (env : Env) (table_sel : string)
    (target_count : Z) (st : Loop) : option (Loop * Completion) :=
  match fuel with
  | O => None
  | S fuel' =>
      if Nat.ltb (attempts st) safety_ceiling then
        let '(st', stop) := round table_sel target_count st in
        if stop then Some (st', Exhausted)
        else while_loop fuel' env table_sel target_count (wait env st')
      else Some (st, SafetyCeilingReached)
  end.

(** The state on entry to the loop (lines 204-249). *)
Definition focus (env : Env) (table_sel : string) (p : Page) : Page :=
  match querySelector p table_sel with
  | Some _ => click env p
  | None => p
  end.

Definition enter (env : Env) (p : Page) (table_sel : string)
    (target_count : Z) : Loop :=
  mkLoop (reset_script table_sel (focus env table_sel p))
         [] ∅ 0 0 0 [StartingCollection target_count].

Record Harvest := mkHarvest {
  returned : list Item;
  rounds : nat;
  reason : Completion;
  output : list Line;
  final_page : Page
}.

Definition finish (r : Loop * Completion) : Harvest :=
  let '(st, why) := r in
  mkHarvest (products st) (attempts st) why
            (printed st ++ [CollectionComplete (length (products st)) (attempts st)])
            (page st).

Definition scroll_and_collect_all (env : Env) (p : Page) (table_sel : string)
    (target_count : Z) : option Harvest :=
  finish <$> while_loop (S safety_ceiling) env table_sel target_count
                        (enter env p table_sel target_count).

(** ** Target-count detection in [main] (lines 384-394) *)

(** The part of Python's regular expressions the pattern uses: literal
    characters, the escapes [\s] and [\d] (any other escaped character stands
    for itself), the greedy [+] and one capturing group. *)
Inductive Atom := Lit (c : ascii) | SpaceClass | DigitClass.

Inductive Token := TAtom (a : Atom) | TPlus | TOpen | TClose.

Definition escape (c : ascii) : Atom :=
  if Ascii.eqb c "s" then SpaceClass
  else if Ascii.eqb c "d" then DigitClass
  else Lit c.

Fixpoint tokens (pattern : string) : list Token :=
  match pattern with
  | EmptyString => []
  | String c rest =>
      if Ascii.eqb c "\" then
        match rest with
        | String e rest' => TAtom (escape e) :: tokens rest'
        | EmptyString => [TAtom (Lit c)]
        end
      else if Ascii.eqb c "+" then TPlus :: tokens rest
      else if Ascii.eqb c "(" then TOpen :: tokens rest
      else if Ascii.eqb c ")" then TClose :: tokens rest
      else TAtom (Lit c) :: tokens rest
  end.

Record Piece := mkPiece {
  atom : Atom;
  repeated : bool;
  in_group : bool
}.

Fixpoint pieces (ts : list Token) (grouped : bool) : list Piece :=
  match ts with
  | [] => []
  | TAtom a :: TPlus :: rest => mkPiece a true grouped :: pieces rest grouped
  | TAtom a :: rest => mkPiece a false grouped :: pieces rest grouped
  | TOpen :: rest => pieces rest true
  | TClose :: rest => pieces rest false
  | TPlus :: rest => pieces rest grouped
  end.

Definition re_compile (pattern : string) : list Piece :=
  pieces (tokens pattern) false.

Definition is_py_space (c : ascii) : bool :=
  let n := nat_of_ascii c in
  ((9 <=? n)%nat && (n <=? 13)%nat) || ((28 <=? n)%nat && (n <=? 32)%nat)
  || (n =? 133)%nat || (n =? 160)%nat.

Definition is_digit (c : ascii) : bool :=
  let n := nat_of_ascii c in (48 <=? n)%nat && (n <=? 57)%nat.

Definition accepts (a : Atom) (c : ascii) : bool :=
  match a with
  | Lit c' => Ascii.eqb c c'
  | SpaceClass => is_py_space c
  | DigitClass => is_digit c
  end.

(** Match the pieces at the start of [s]; the result is the text of group 1.
    A repeated piece takes as many characters as it can and gives them back
    one by one when the rest fails. *)
Fixpoint match_here (ps : list Piece) (s : string) : option string :=
  match ps with
  | [] => Some EmptyString
  | p :: ps' =>
      let keep c r := if in_group p then String c r else r in
      if repeated p then
        (fix more (s : string) : option string :=
           match s with
           | String c s' =>
               if accepts (atom p) c then
                 match more s' with
                 | Some r => Some (keep c r)
                 | None => keep c <$> match_here ps' s'
                 end
               else None
           | EmptyString => None
           end) s
      else
        match s with
        | String c s' =>
            if accepts (atom p) c then keep c <$> match_here ps' s' else None
        | EmptyString => None
        end
  end.

(** [re.search]: the leftmost position where the pattern matches. *)
Fixpoint re_search (ps : list Piece) (s : string) : option string :=
  match match_here ps s with
  | Some group1 => Some group1
  | None =>
      match s with
      | String _ s' => re_search ps s'
      | EmptyString => None
      end
  end.

(** [str.lower], on the letters A-Z. *)
Definition lower_char (c : ascii) : ascii :=
  let n := nat_of_ascii c in
  if (65 <=? n)%nat && (n <=? 90)%nat then ascii_of_nat (n + 32) else c.

Fixpoint lower (s : string) : string :=
  match s with
  | EmptyString => EmptyString
  | String c s' => String (lower_char c) (lower s')
  end.

(** [int(text)]: surrounding whitespace, an optional sign, decimal digits
    with single underscores between them; [None] stands for [ValueError]. *)
Fixpoint digits_value (l : list ascii) (acc : Z) (after_digit : bool)
    : option Z :=
  match l with
  | [] => if after_digit then Some acc else None
  | c :: l' =>
      if Ascii.eqb c "_" then
        if after_digit then digits_value l' acc false else None
      else if is_digit c then
        digits_value l' (10 * acc + Z.of_nat (nat_of_ascii c - 48)) true
      else None
  end.

Fixpoint drop_py_spaces (l : list ascii) : list ascii :=
  match l with
  | c :: l' => if is_py_space c then drop_py_spaces l' else l
  | [] => []
  end.

Definition py_int (text : string) : option Z :=
  let l := rev (drop_py_spaces (rev (drop_py_spaces (list_ascii_of_string text)))) in
  match l with
  | c :: l' =>
      if Ascii.eqb c "+" then digits_value l' 0 false
      else if Ascii.eqb c "-" then Z.opp <$> digits_value l' 0 false
      else digits_value l 0 false
  | [] => None
  end.

Inductive Outcome (A : Type) :=
| Returned (value : A)
| Raised (exception : string).
Arguments Returned {A} value.
Arguments Raised {A} exception.

(** The raw string literal of line 387, character for character. *)
Definition banner_pattern : string := "showing\\s+\\d+\\s+of\\s+(\\d+)".

(** The value [target_count] has when [scroll_and_collect_all] is called,
    given [document.body.innerText]. *)
Definition detect_target_count_with (pattern page_text : string) : Outcome Z :=
  match re_search (re_compile pattern) (lower page_text) with
  | None => Returned 2849
  | Some group1 =>
      match py_int group1 with
      | None => Raised "ValueError"
      | Some detected =>
          if Z.ltb 0 detected then Returned detected else Returned 2849
      end
  end.

Definition main_target_count (page_text : string) : Outcome Z :=
  detect_target_count_with banner_pattern page_text.

(** The pattern as the specification words it: ["showing <k> of <N>"] with
    whitespace between the words and decimal integers. *)
Definition banner_pattern_as_specified : string := "showing\s+\d+\s+of\s+(\d+)".

Definition target_count_as_specified (page_text : string) : Outcome Z :=
  detect_target_count_with banner_pattern_as_specified page_text.


(** ** The page driver, as the navigation helpers use it

    [is_logged_in], [try_login], [click_button_by_text], [complete_step] and
    [find_table_container] only talk to the browser through a handful of
    Playwright calls, each of which may return or raise and may change the
    browser.  The browser is a parameter; every call is recorded. *)

Definition Handle := nat.

Inductive Event :=
| Queried (sel : string) (r : Outcome (option Handle))
| QueriedAll (sel : string) (r : Outcome (list Handle))
| CheckedVisible (h : Handle) (r : Outcome bool)
| CheckedEnabled (h : Handle) (r : Outcome bool)
| ReadText (h : Handle) (r : Outcome string)
| Clicked (h : Handle) (r : Outcome unit)
| Filled (h : Handle) (text : string) (r : Outcome unit)
| Waited (ms : Z) (r : Outcome unit)
| WaitedFor (sel : string) (timeout : Z) (r : Outcome Handle)
| WentTo (url : string) (r : Outcome unit)
| PageFilled (sel text : string) (r : Outcome unit)
| PageClicked (sel : string) (r : Outcome unit)
| Printed (msg : string).

Record Browser (World : Type) := mkBrowser {
  on_query_selector : string -> World -> World * Outcome (option Handle);
  on_query_selector_all : string -> World -> World * Outcome (list Handle);
  on_is_visible : Handle -> World -> World * Outcome bool;
  on_is_enabled : Handle -> World -> World * Outcome bool;
  on_inner_text : Handle -> World -> World * Outcome string;
  on_click : Handle -> World -> World * Outcome unit;
  on_fill : Handle -> string -> World -> World * Outcome unit;
  on_wait_for_timeout : Z -> World -> World * Outcome unit;
  on_wait_for_selector : string -> Z -> World -> World * Outcome Handle;
  on_goto : string -> World -> World * Outcome unit;
  on_page_fill : string -> string -> World -> World * Outcome unit;
  on_page_click : string -> World -> World * Outcome unit
}.
Arguments on_query_selector {World}.
Arguments on_query_selector_all {World}.
Arguments on_is_visible {World}.
Arguments on_is_enabled {World}.
Arguments on_inner_text {World}.
Arguments on_click {World}.
Arguments on_fill {World}.
Arguments on_wait_for_timeout {World}.
Arguments on_wait_for_selector {World}.
Arguments on_goto {World}.
Arguments on_page_fill {World}.
Arguments on_page_click {World}.

(** A coroutine of the script: from the browser and the record of calls so
    far to what they are afterwards and what the coroutine returned or
    raised. *)
Definition Script (World A : Type) : Type :=
  World * list Event -> (World * list Event) * Outcome A.

Definition ret {World A} (a : A) : Script World A :=
  fun st => (st, Returned a).

Definition raise {World A} (exception : string) : Script World A :=
  fun st => (st, Raised exception).

Definition bind {World A B} (c : Script World A) (k : A -> Script World B)
    : Script World B :=
  fun st =>
    match c st with
    | (st', Returned a) => k a st'
    | (st', Raised exception) => (st', Raised exception)
    end.

(** [try: body / except: handler] *)
Definition attempt {World A} (body handler : Script World A) : Script World A :=
  fun st =>
    match body st with
    | (st', Returned a) => (st', Returned a)
    | (st', Raised _) => handler st'
    end.

(** One call into the browser, recorded with its outcome. *)
Definition call {World A} (f : World -> World * Outcome A)
    (event : Outcome A -> Event) : Script World A :=
  fun st =>
    let '(w', r) := f (fst st) in ((w', snd st ++ [event r]), r).

Definition say {World} (msg : string) : Script World unit :=
  fun st => ((fst st, snd st ++ [Printed msg]), Returned tt).

Declare Scope script_scope.
Delimit Scope script_scope with script.
Notation "'let!' x ':=' c 'in' k" :=
  (bind c (fun x => k))
  (at level 10, x name, c at level 100, k at level 200) : script_scope.
Notation "c '>>' k" :=
  (bind c (fun _ => k))
  (at level 100, k at level 200, right associativity) : script_scope.

Section Navigation.
Context {World : Type} (browser : Browser World).
Local Open Scope script_scope.

Definition query_selector (sel : string) : Script World (option Handle) :=
  call (on_query_selector browser sel) (Queried sel).
Definition query_selector_all (sel : string) : Script World (list Handle) :=
  call (on_query_selector_all browser sel) (QueriedAll sel).
Definition is_visible (h : Handle) : Script World bool :=
  call (on_is_visible browser h) (CheckedVisible h).
Definition is_enabled (h : Handle) : Script World bool :=
  call (on_is_enabled browser h) (CheckedEnabled h).
Definition inner_text (h : Handle) : Script World string :=
  call (on_inner_text browser h) (ReadText h).
Definition handle_click (h : Handle) : Script World unit :=
  call (on_click browser h) (Clicked h).
Definition handle_fill (h : Handle) (text : string) : Script World unit :=
  call (on_fill browser h text) (Filled h text).
Definition wait_for_timeout (ms : Z) : Script World unit :=
  call (on_wait_for_timeout browser ms) (Waited ms).
Definition wait_for_selector (sel : string) (timeout : Z)
    : Script World Handle :=
  call (on_wait_for_selector browser sel timeout) (WaitedFor sel timeout).
Definition goto (url : string) : Script World unit :=
  call (on_goto browser url) (WentTo url).
Definition page_fill (sel text : string) : Script World unit :=
  call (on_page_fill browser sel text) (PageFilled sel text).
Definition page_click (sel : string) : Script World unit :=
  call (on_page_click browser sel) (PageClicked sel).

(** The double quote, and the two selectors written with it. *)
Definition dq : string := String (ascii_of_nat 34) EmptyString.
Definition email_input : string := "input[type=" +:+ dq +:+ "email" +:+ dq +:+ "]".
Definition password_input : string :=
  "input[type=" +:+ dq +:+ "password" +:+ dq +:+ "]".

Definition found (h : option Handle) : bool :=
  match h with Some _ => true | None => false end.

(** [is_logged_in] (lines 23-34) *)
Definition is_logged_in : Script World bool :=
  attempt
    (let! launch := query_selector "text=Launch Challenge" in
     if found launch then ret true else
     let! email := query_selector email_input in
     let! sign_in :=
       (if found email then ret true
        else let! s := query_selector "text=Sign in" in ret (found s)) in
     if sign_in then ret false else
     let! logout := query_selector "text=Logout" in
     if found logout then ret true else ret false)
    (ret false).

(** [str.rstrip("/")] *)
Fixpoint drop_slashes (l : list ascii) : list ascii :=
  match l with
  | c :: l' => if Ascii.eqb c "/" then drop_slashes l' else l
  | [] => []
  end.

Definition rstrip_slash (s : string) : string :=
  string_of_list_ascii (rev (drop_slashes (rev (list_ascii_of_string s)))).

(** [not value] for a variable read from the environment. *)
Definition unset (value : option string) : bool :=
  match value with
  | None => true
  | Some s => String.eqb s ""
  end.

(** The first loop of [try_login] (lines 44-52); the body answers whether
    the loop is left by [break]. *)
Definition sign_in_via (sel : string) : Script World bool :=
  attempt
    (let! btn := query_selector sel in
     match btn with
     | Some b => handle_click b >> wait_for_timeout 500 >> ret true
     | None => ret false
     end)
    (ret false).

Fixpoint open_sign_in (sels : list string) : Script World unit :=
  match sels with
  | [] => ret tt
  | sel :: rest =>
      let! done := sign_in_via sel in
      if done then ret tt else open_sign_in rest
  end.

(** The submit loop of [try_login] (lines 63-70). *)
Definition submit_via (sel : string) : Script World bool :=
  attempt
    (let! submit := query_selector sel in
     match submit with
     | Some b => handle_click b >> ret true
     | None => ret false
     end)
    (ret false).

Fixpoint press_submit (sels : list string) : Script World unit :=
  match sels with
  | [] => ret tt
  | sel :: rest =>
      let! done := submit_via sel in
      if done then ret tt else press_submit rest
  end.

(** The [try] block of lines 55-72 and the one of lines 75-83. *)
Definition fill_form (email password : string) : Script World unit :=
  let! email_field := wait_for_selector email_input 3000 in
  handle_fill email_field email >>
  let! pwd := query_selector password_input in
  (match pwd with
   | Some field => handle_fill field password
   | None => ret tt
   end) >>
  press_submit ["button[type=submit]"; "text=Sign in"; "text=Login"] >>
  wait_for_timeout 2000.

Definition login_page (email password : string) (TARGET_URL : option string)
    : Script World unit :=
  (match TARGET_URL with
   | Some url => goto (rstrip_slash url +:+ "/login")
   | None => raise "AttributeError"
   end) >>
  wait_for_timeout 1000 >>
  page_fill email_input email >>
  page_fill password_input password >>
  page_click "button[type=submit]" >>
  wait_for_timeout 2000.

(** [try_login] (lines 37-85); [EMAIL], [PASSWORD] and [TARGET_URL] are the
    module's globals, [None] when the variable is not set. *)
Definition try_login (EMAIL PASSWORD TARGET_URL : option string)
    : Script World bool :=
  if unset EMAIL || unset PASSWORD then
    say "Missing credentials" >> ret false
  else
    let email := default "" EMAIL in
    let password := default "" PASSWORD in
    open_sign_in ["text=Sign in"; "text=Login"] >>
    attempt
      (fill_form email password)
      (attempt (login_page email password TARGET_URL) (ret tt)) >>
    is_logged_in.

(** The three selectors tried for one text (lines 91-95). *)
Definition selectors_for (text : string) : list string :=
  ["text=/" +:+ text +:+ "/i";
   "button:has-text(" +:+ dq +:+ text +:+ dq +:+ ")";
   "[role=button]:has-text(" +:+ dq +:+ text +:+ dq +:+ ")"].

(** The body of the inner loop of [click_button_by_text]: [true] stands for
    [return True], [false] for going on with the next selector. *)
Definition try_selector (sel : string) : Script World bool :=
  attempt
    (let! btn := query_selector sel in
     match btn with
     | None => ret false
     | Some b =>
         let! shown := is_visible b in
         if shown then
           let! enabled := is_enabled b in
           if enabled then
             handle_click b >> wait_for_timeout 500 >> ret true
           else ret false
         else ret false
     end)
    (ret false).

Fixpoint try_selectors (sels : list string) : Script World bool :=
  match sels with
  | [] => ret false
  | sel :: rest =>
      let! clicked := try_selector sel in
      if clicked then ret true else try_selectors rest
  end.

(** [click_button_by_text] (lines 88-106) *)
Fixpoint click_button_by_text (texts : list string) : Script World bool :=
  match texts with
  | [] => ret false
  | text :: rest =>
      let! clicked := try_selectors (selectors_for text) in
      if clicked then ret true else click_button_by_text rest
  end.

(** [x in text] for strings. *)
Fixpoint contains (needle text : string) : bool :=
  String.prefix needle text
  || match text with
     | String _ rest => contains needle rest
     | EmptyString => false
     end.

Definition avoided_words : list string :=
  ["next"; "back"; "cancel"; "skip"; "close"; "sign"].

(** [.strip().lower()] of a button's text. *)
Definition label_of (text : string) : string :=
  lower (string_of_list_ascii
           (rev (drop_py_spaces
                   (rev (drop_py_spaces (list_ascii_of_string text)))))).

(** [text and not any(x in text for x in (...))] *)
Definition pressable (label : string) : bool :=
  negb (String.eqb label "")
  && negb (existsb (fun x => contains x label) avoided_words).

(** The [for btn in buttons] loop of [complete_step] (lines 119-125); the
    result is the value of [clicked] when the [try] block is left, also
    when it is left by the wait raising after the click. *)
Fixpoint press_first (buttons : list Handle) : Script World bool :=
  match buttons with
  | [] => ret false
  | btn :: rest =>
      let! text := inner_text btn in
      if pressable (label_of text) then
        handle_click btn >>
        attempt (wait_for_timeout 400) (ret tt) >>
        ret true
      else press_first rest
  end.

(** The two ways [complete_step] has of choosing an option (lines 113-127). *)
Definition click_option (option_texts : option (list string))
    : Script World bool :=
  match option_texts with
  | Some (text :: texts) => click_button_by_text (text :: texts)
  | _ => ret false
  end.

Definition click_any_button : Script World bool :=
  attempt
    (let! buttons := query_selector_all "button:visible" in
     press_first buttons)
    (ret false).

(** [complete_step] (lines 109-132); [option_texts] is [None] by default. *)
Definition complete_step (option_texts : option (list string))
    : Script World bool :=
  let! clicked := click_option option_texts in
  let! clicked := (if clicked then ret true else click_any_button) in
  let! next_clicked :=
    click_button_by_text ["Next"; "Continue"; "View Products"] in
  wait_for_timeout 800 >>
  ret (clicked || next_clicked).

(** The loop of [find_table_container] (lines 145-151): the selector
    returned from inside the loop, if any. *)
Definition is_shown (sel : string) : Script World bool :=
  attempt
    (let! el := query_selector sel in
     match el with
     | Some h => is_visible h
     | None => ret false
     end)
    (ret false).

Fixpoint first_visible (sels : list string) : Script World (option string) :=
  match sels with
  | [] => ret None
  | sel :: rest =>
      let! hit := is_shown sel in
      if hit then ret (Some sel) else first_visible rest
  end.

(** [find_table_container] (lines 135-153) *)
Definition find_table_container : Script World string :=
  let! hit := first_visible ["table"; "[role=table]"; "[role=grid]"] in
  ret (default "table" hit).

End Navigation.

(** ** Vocabulary for the statements *)

(** One full round that did not break, followed by the wait. *)
Definition advance (env : Env) (table_sel : string) (target_count : Z)
    (st : Loop) : Loop :=
  wait env (fst (round table_sel target_count st)).

(** The loop state after [n] rounds none of which broke. *)
Fixpoint state_after (env : Env) (table_sel : string) (target_count : Z)
    (st : Loop) (n : nat) : Loop :=
  match n with
  | O => st
  | S k => state_after env table_sel target_count
                       (advance env table_sel target_count st) k
  end.

(** Whether the round started in [st] ends in [break]. *)
Definition breaks (table_sel : string) (target_count : Z) (st : Loop) : bool :=
  snd (round table_sel target_count st).

Section Run.
Variables (env : Env) (p : Page) (table_sel : string) (target_count : Z).

(** The loop state once [n] rounds are over (and did not break). *)
Definition after_rounds (n : nat) : Loop :=
  state_after env table_sel target_count
              (enter env p table_sel target_count) n.

(** What the scroll script returns in round [i] (rounds count from 1). *)
Definition scrolled_in (i : nat) : Scrolled :=
  snd (scroll_script table_sel (page (after_rounds (i - 1)))).

(** The rows the extraction script returns in round [i]. *)
Definition rows_in (i : nat) : list (list string) :=
  snd (rows_script table_sel (page (after_rounds (i - 1)))).

(** All rows offered in rounds [1..n], in the order they were read. *)
Definition offered (n : nat) : list (list string) :=
  flat_map (fun k => rows_in (S k)) (seq 0 n).

(** [len(products)] at the end of round [i]. *)
Definition collected_by (i : nat) : nat :=
  length (products (after_rounds i)).

End Run.

(** A loop state with what it printed left out. *)
Definition silent (st : Loop) : Loop :=
  mkLoop (page st) (products st) (seen_ids st) (attempts st)
         (no_progress_rounds st) (last_count st) [].

(** Whatever the pieces match, the text of group 1 starts with a backslash. *)
Definition backslashed (ps : list Piece) : Prop :=
  forall s g, match_here ps s = Some g -> exists g', g = String "\" g'.

(** The first cells of a list of rows; a row without cells has none. *)
Definition row_keys (rows : list (list string)) : list string :=
  flat_map (fun cells => match cells with [] => [] | k :: _ => [k] end) rows.

(** Position of the first occurrence of [k] in [l] ([length l] if none). *)
Fixpoint first_index (k : string) (l : list string) : nat :=
  match l with
  | [] => O
  | x :: l' => if String.eqb x k then O else S (first_index k l')
  end.

(** The keys [collect_rows] lets through, given the keys it is offered. *)
Fixpoint accept_keys (seen : gset string) (keys : list string) : list string :=
  match keys with
  | [] => []
  | k :: ks =>
      if String.eqb k "" || bool_decide (k ∈ seen) then accept_keys seen ks
      else k :: accept_keys ({[k]} ∪ seen) ks
  end.

(** The positional projections of an item, by column number. *)
Definition projection (k : nat) (it : Item) : string :=
  match k with
  | 1 => category it
  | 2 => color it
  | 3 => dimensions it
  | 4 => price it
  | 5 => product it
  | 6 => score it
  | _ => ""
  end%nat.

(** The nodes the upward loop of [getScroller] visits: the table and its
    parents up to, not including, [document.body]. *)
Fixpoint below_body (body : nat) (nodes : list Element) : list Element :=
  match nodes with
  | [] => []
  | node :: up =>
      if Nat.eqb (nodeId node) body then [] else node :: below_body body up
  end.

(** ** Sample pages *)

Definition el (id : nat) (tag overflow : string) (top : Z) (sh ch : N)
    : Element :=
  mkElement id tag overflow top sh ch.

Definition page_with (t : Table) : Page :=
  mkPage 90 (fun s => if String.eqb s "table" then Some t else None).

Definition still : Env := mkEnv (fun p => p) (fun _ p => p).

Definition body_el : Element := el 90 "body" "visible" 0 900 900.
Definition html_el : Element := el 91 "html" "visible" 0 900 900.
Definition table_el : Element := el 1 "table" "visible" 0 300 300.

(** A table with no rows and nothing scrollable around or inside it. *)
Definition bare_page : Page :=
  page_with (mkTable table_el [body_el; html_el] [] []).

(** One fully rendered row in a scroller nine viewports tall. *)
Definition tall_scroller : Element := el 2 "div" "auto" 0 900 100.
Definition tall_table : Table :=
  mkTable table_el [tall_scroller; body_el; html_el] []
          [mkRow (Some 2%nat) ["A"; "chair"]].
Definition tall_page : Page := page_with tall_table.

(** The same row in a scroller one and a half viewports tall. *)
Definition short_scroller : Element := el 2 "div" "auto" 0 150 100.
Definition short_page : Page :=
  page_with (mkTable table_el [short_scroller; body_el; html_el] []
                     [mkRow (Some 2%nat) ["A"; "chair"]]).

(** A widget that snaps back to its first rendering during every wait. *)
Definition rewinding : Env := mkEnv (fun p => p) (fun _ _ => tall_page).

(** A widget that, while the loop waits after each of the first ten rounds,
    pulls the scroller of [short_page] back to ten units above its maximum
    of 50; the rendered row stays as it is. *)
Definition pulled_scroller : Element := el 2 "div" "auto" 40 150 100.
Definition pulled_page : Page :=
  page_with (mkTable table_el [pulled_scroller; body_el; html_el] []
                     [mkRow (Some 2%nat) ["A"; "chair"]]).
Definition nudging : Env :=
  mkEnv (fun p => p) (fun n q => if Nat.leb n 10 then pulled_page else q).

(** A table whose only scrollable element is its own [tbody]. *)
Definition tbody_scroller : Element := el 3 "tbody" "scroll" 0 5000 400.
Definition tbody_table : Table :=
  mkTable table_el [body_el; html_el]
          [tbody_scroller; el 4 "tr" "visible" 0 20 20] [].

(** The same row in a scroller whose viewport has no height. *)
Definition flat_scroller : Element := el 2 "div" "auto" 0 300 0.
Definition flat_table : Table :=
  mkTable table_el [flat_scroller; body_el; html_el] []
          [mkRow (Some 2%nat) ["A"; "chair"]].
Definition flat_page : Page := page_with flat_table.

Definition short_table : Table :=
  mkTable table_el [short_scroller; body_el; html_el] []
          [mkRow (Some 2%nat) ["A"; "chair"]].

(** The same row with its cells padded: a tab, an em space (U+2003) and a
    byte order mark (U+FEFF) before the id, a no-break space (U+00A0), an
    ideographic space (U+3000) and a line separator (U+2028) after it. *)
Definition bytes (l : list nat) : string :=
  string_of_list_ascii (List.map ascii_of_nat l).

Definition padded_id : string :=
  bytes [9; 226; 128; 131; 239; 187; 191]%nat
  +:+ "A" +:+ bytes [194; 160; 227; 128; 128; 226; 128; 168]%nat.

Definition padded_page : Page :=
  page_with (mkTable table_el [short_scroller; body_el; html_el] []
                     [mkRow (Some 2%nat) [padded_id; " chair "]]).

(** ** Vocabulary for the navigation helpers *)

(** Started in any state, [c] adds some calls [evs] to the record and ends
    with some [r] such that [Q r evs]. *)
Definition yields {World A} (c : Script World A)
    (Q : Outcome A -> list Event -> Prop) : Prop :=
  forall w log,
    exists evs,
      snd (fst (c (w, log))) = log ++ evs /\ Q (snd (c (w, log))) evs.

(** Every call of a record satisfies [J], which may look at the two calls
    made directly before it. *)
Fixpoint each_justified (J : option Event -> option Event -> Event -> Prop)
    (prev2 prev1 : option Event) (evs : list Event) : Prop :=
  match evs with
  | [] => True
  | ev :: rest => J prev2 prev1 ev /\ each_justified J prev1 (Some ev) rest
  end.

(** A requirement on the calls before can only be met by calls that were
    made. *)
Definition looks_back (J : option Event -> option Event -> Event -> Prop)
    : Prop :=
  forall a b a' b' ev,
    J a b ev -> (a = None \/ a = a') -> (b = None \/ b = b') -> J a' b' ev.

Definition is_lookup (ev : Event) : Prop :=
  match ev with
  | Queried _ _ => True
  | _ => False
  end.

(** What [click_button_by_text] may do: look up, check, click a handle it
    has just found visible and enabled, and wait half a second after a
    click that went through. *)
Definition checked_click (prev2 prev1 : option Event) (ev : Event) : Prop :=
  match ev with
  | Queried _ _ | CheckedVisible _ _ | CheckedEnabled _ _ => True
  | Clicked h _ =>
      prev2 = Some (CheckedVisible h (Returned true))
      /\ prev1 = Some (CheckedEnabled h (Returned true))
  | Waited ms _ => ms = 500 /\ exists h, prev1 = Some (Clicked h (Returned tt))
  | _ => False
  end.

(** What [complete_step] may do on top of that: list the buttons, read a
    button's text, click a button whose text it has just read and found
    pressable, wait after that click, and wait at the end. *)
Definition sensible_step (prev2 prev1 : option Event) (ev : Event) : Prop :=
  match ev with
  | Queried _ _ | QueriedAll _ _ | CheckedVisible _ _ | CheckedEnabled _ _
  | ReadText _ _ => True
  | Clicked h _ =>
      (prev2 = Some (CheckedVisible h (Returned true))
       /\ prev1 = Some (CheckedEnabled h (Returned true)))
      \/ (exists text,
            prev1 = Some (ReadText h (Returned text))
            /\ pressable (label_of text) = true)
  | Waited ms _ =>
      ms = 800
      \/ ((ms = 500 \/ ms = 400)
          /\ exists h, prev1 = Some (Clicked h (Returned tt)))
  | _ => False
  end.

(** What [find_table_container] may do: look up, and check the visibility
    of the handle it has just found. *)
Definition probe (prev2 prev1 : option Event) (ev : Event) : Prop :=
  match ev with
  | Queried _ _ => True
  | CheckedVisible h _ =>
      exists sel, prev1 = Some (Queried sel (Returned (Some h)))
  | _ => False
  end.

(** What [try_login] may do with the credentials and the target. *)
Definition login_event (email password : string) (target : option string)
    (prev2 prev1 : option Event) (ev : Event) : Prop :=
  match ev with
  | Queried _ _ | Waited _ _ | WaitedFor _ _ _ => True
  | Clicked h _ =>
      exists sel,
        prev1 = Some (Queried sel (Returned (Some h)))
        /\ sel ∈ ["text=Sign in"; "text=Login"; "button[type=submit]"]
  | Filled h text _ =>
      (text = email
       /\ prev1 = Some (WaitedFor email_input 3000 (Returned h)))
      \/ (text = password
          /\ prev1 = Some (Queried password_input (Returned (Some h))))
  | WentTo url _ =>
      exists base, target = Some base /\ url = rstrip_slash base +:+ "/login"
  | PageFilled sel text _ =>
      (sel = email_input /\ text = email)
      \/ (sel = password_input /\ text = password)
  | PageClicked sel _ => sel = "button[type=submit]"
  | Printed msg => msg = "Missing credentials"
  | _ => False
  end.

(** A browser in which nothing is found and nothing fails. *)
Definition blank_browser : Browser unit :=
  mkBrowser unit
    (fun _ w => (w, Returned None))
    (fun _ w => (w, Returned []))
    (fun _ w => (w, Returned false))
    (fun _ w => (w, Returned false))
    (fun _ w => (w, Returned ""))
    (fun _ w => (w, Returned tt))
    (fun _ _ w => (w, Returned tt))
    (fun _ w => (w, Returned tt))
    (fun _ _ w => (w, Raised "TimeoutError"))
    (fun _ w => (w, Returned tt))
    (fun _ _ w => (w, Returned tt))
    (fun _ w => (w, Returned tt)).

(** What a run of [click_button_by_text] that answered [b] has recorded. *)
Definition click_outcome (b : bool) (evs : list Event) : Prop :=
  each_justified checked_click None None evs
  /\ (b = true <-> last evs = Some (Waited 500 (Returned tt)))
  /\ (b = true -> exists h, Clicked h (Returned tt) ∈ evs).

(** What the loop of [find_table_container] has recorded when it returned
    selector [hit] from inside, or fell through. *)
Definition probe_outcome (sels : list string) (hit : option string)
    (evs : list Event) : Prop :=
  each_justified probe None None evs
  /\ match hit with
     | Some sel =>
         sel ∈ sels
         /\ exists pre h,
              evs = pre ++ [Queried sel (Returned (Some h));
                            CheckedVisible h (Returned true)]
     | None => forall h, CheckedVisible h (Returned true) ∉ evs
     end.

(** A progress line. *)
Definition is_progress (l : Line) : Prop :=
  match l with
  | Progress _ _ => True
  | _ => False
  end.

(** ** Further vocabulary *)

(** Whether a text starts, or ends, with a character [trim] strips. *)
Definition edge_space (s : string) : bool :=
  space_ahead two_byte_space three_byte_space (list_ascii_of_string s)
  || space_ahead two_bytes_back three_bytes_back
                 (rev (list_ascii_of_string s)).

(** Where a scroller of viewport [ch] and maximum [mx] stands after [n]
    steps from the top. *)
Definition position_after (ch mx : Z) (n : nat) : Z :=
  Z.min (Z.of_nat n * ch) mx.

(** A page on which the selector matches a table with the rows of [t] whose
    scroller has the heights of [e] and stands where [n] steps from the top
    lead. *)
Definition standing_at (table_sel : string) (t : Table) (e : Element)
    (n : nat) (q : Page) : Prop :=
  exists t' e',
    querySelector q table_sel = Some t'
    /\ getScroller (bodyId q) t' = Some e'
    /\ scrollTop e' = position_after (Z.of_N (clientHeight e)) (max_scroll e) n
    /\ scrollHeight e' = scrollHeight e
    /\ clientHeight e' = clientHeight e
    /\ bodyRows t' = bodyRows t.

(** * Properties *)

Opaque safety_ceiling.

(** ** One round *)

Section Round.
Variables (env : Env) (table_sel : string) (target_count : Z).

Lemma rows_script_page (q : Page) : fst (rows_script table_sel q) = q.
Proof. unfold rows_script. by destruct (querySelector q table_sel). Qed.

(** The fields of the state a round leaves behind, one equation each. *)
Lemma round_fields (st : Loop) :
  let rows := snd (rows_script table_sel (page st)) in
  let got := collect_rows rows (seen_ids st) [] in
  let sc := snd (scroll_script table_sel (page st)) in
  let st' := fst (round table_sel target_count st) in
  attempts st' = S (attempts st)
  /\ products st' = products st ++ fst got
  /\ seen_ids st' = snd got
  /\ page st' = fst (scroll_script table_sel (page st))
  /\ last_count st' = Nat.max (last_count st) (length (products st'))
  /\ no_progress_rounds st' =
       (if Nat.ltb (last_count st) (length (products st'))
        then O else S (no_progress_rounds st))
  /\ breaks table_sel target_count st =
       did_not_move sc
       && (at_bottom sc && Nat.leb 5 (no_progress_rounds st'))
  /\ printed st' =
       printed st
       ++ (if Nat.eqb (S (attempts st) mod 25) 0
           then [Progress (length (products st'))
                          (pct_of (length (products st')) target_count)]
           else [])
       ++ (if breaks table_sel target_count st then [Stopping] else []).
Proof.
  unfold breaks, round, extract_new_products.
  pose proof (rows_script_page (page st)) as Hp.
  destruct (rows_script table_sel (page st)) as [p1 rows]; simpl in Hp; subst p1.
  simpl.
  destruct (collect_rows rows (seen_ids st) []) as [new seen'] eqn:Hc; simpl.
  assert (Hprod : match new with [] => products st | _ :: _ => products st ++ new end
                  = products st ++ new)
    by (destruct new; [by rewrite app_nil_r | done]).
  rewrite Hprod.
  destruct (Nat.ltb (last_count st) (length (products st ++ new))) eqn:Hlt;
    destruct (scroll_script table_sel (page st)) as [p2 sc]; simpl;
    rewrite ?Hlt;
    [apply Nat.ltb_lt in Hlt | apply Nat.ltb_ge in Hlt].
  all: repeat split; try done; try lia.
  all: destruct (did_not_move sc && _); destruct (Nat.eqb _ 0);
    by rewrite <- ?app_assoc, ?app_nil_r.
Qed.

Lemma round_attempts st :
  attempts (fst (round table_sel target_count st)) = S (attempts st).
Proof. apply (round_fields st). Qed.

Lemma advance_attempts st :
  attempts (advance env table_sel target_count st) = S (attempts st).
Proof. unfold advance, wait; simpl. apply round_attempts. Qed.

Lemma state_after_S st n :
  state_after env table_sel target_count st (S n)
  = advance env table_sel target_count (state_after env table_sel target_count st n).
Proof.
  revert st; induction n as [|n IH]; intros st; [done|].
  simpl in *. by rewrite IH.
Qed.

Lemma state_after_attempts st n :
  attempts (state_after env table_sel target_count st n) = (attempts st + n)%nat.
Proof.
  revert st; induction n as [|n IH]; intros st; simpl; [lia|].
  rewrite IH, advance_attempts. lia.
Qed.

(** ** The [while] loop *)

Lemma while_loop_step fuel st :
  while_loop (S fuel) env table_sel target_count st =
    if Nat.ltb (attempts st) safety_ceiling then
      if breaks table_sel target_count st
      then Some (fst (round table_sel target_count st), Exhausted)
      else while_loop fuel env table_sel target_count
                      (advance env table_sel target_count st)
    else Some (st, SafetyCeilingReached).
Proof.
  simpl. unfold breaks, advance.
  destruct (Nat.ltb (attempts st) safety_ceiling); [|done].
  by destruct (round table_sel target_count st) as [st' []].
Qed.

(** Rounds that do not break are simply run through. *)
Lemma while_loop_skip n : forall fuel st,
  (forall i, (i < n)%nat ->
     breaks table_sel target_count
            (state_after env table_sel target_count st i) = false) ->
  (attempts st + n <= safety_ceiling)%nat ->
  while_loop (n + fuel) env table_sel target_count st
  = while_loop fuel env table_sel target_count
               (state_after env table_sel target_count st n).
Proof.
  induction n as [|n IH]; intros fuel st Hnb Hle; [done|].
  replace (S n + fuel)%nat with (S (n + fuel)) by lia.
  rewrite while_loop_step.
  assert (Hlt : Nat.ltb (attempts st) safety_ceiling = true)
    by (apply Nat.ltb_lt; lia).
  pose proof (Hnb O ltac:(lia)) as H0. simpl in H0.
  rewrite Hlt, H0. simpl. apply IH.
  - intros i Hi. apply (Hnb (S i)). lia.
  - rewrite advance_attempts. lia.
Qed.

(** With enough fuel the loop returns, and says how it got out. *)
Lemma while_loop_result fuel : forall st,
  (attempts st <= safety_ceiling)%nat ->
  (safety_ceiling - attempts st < fuel)%nat ->
  exists st' why m,
    while_loop fuel env table_sel target_count st = Some (st', why)
    /\ (forall i, (i < m)%nat ->
          breaks table_sel target_count
                 (state_after env table_sel target_count st i) = false)
    /\ ((why = Exhausted
         /\ breaks table_sel target_count
                   (state_after env table_sel target_count st m) = true
         /\ st' = fst (round table_sel target_count
                             (state_after env table_sel target_count st m))
         /\ attempts st' = (attempts st + S m)%nat
         /\ (attempts st' <= safety_ceiling)%nat)
        \/ (why = SafetyCeilingReached
            /\ st' = state_after env table_sel target_count st m
            /\ attempts st' = safety_ceiling)).
Proof.
  induction fuel as [|fuel IH]; intros st Hle Hfuel; [lia|].
  rewrite while_loop_step.
  destruct (Nat.ltb (attempts st) safety_ceiling) eqn:Hlt.
  - apply Nat.ltb_lt in Hlt.
    destruct (breaks table_sel target_count st) eqn:Hb.
    + exists (fst (round table_sel target_count st)), Exhausted, O.
      split; [done|]. split; [intros; lia|]. left. simpl.
      rewrite round_attempts. repeat split; try done; lia.
    + destruct (IH (advance env table_sel target_count st))
        as (st' & why & m & Hrun & Hnb & Hcase).
      { rewrite advance_attempts. lia. }
      { rewrite advance_attempts. lia. }
      exists st', why, (S m). split; [done|]. split.
      * intros [|i] Hi; simpl; [done|]. apply Hnb. lia.
      * simpl. rewrite advance_attempts in Hcase.
        destruct Hcase as [(-> & ? & ? & ? & ?)|(-> & ? & ?)]; [left|right];
          repeat split; try done; lia.
  - apply Nat.ltb_ge in Hlt.
    exists st, SafetyCeilingReached, O. split; [done|].
    split; [intros; lia|]. right. repeat split; try done. simpl. lia.
Qed.

End Round.

(** ** Whole runs *)

Section Runs.
Variables (env : Env) (p : Page) (table_sel : string) (target_count : Z).

Lemma after_rounds_S n :
  after_rounds env p table_sel target_count (S n)
  = advance env table_sel target_count
            (after_rounds env p table_sel target_count n).
Proof. apply state_after_S. Qed.

Lemma after_rounds_attempts n :
  attempts (after_rounds env p table_sel target_count n) = n.
Proof. unfold after_rounds. by rewrite state_after_attempts. Qed.

(** The scroll result and the break decision of round [S n]. *)
Lemma breaks_after n :
  breaks table_sel target_count (after_rounds env p table_sel target_count n)
  = did_not_move (scrolled_in env p table_sel target_count (S n))
    && (at_bottom (scrolled_in env p table_sel target_count (S n))
        && Nat.leb 5 (no_progress_rounds
                        (after_rounds env p table_sel target_count (S n)))).
Proof.
  destruct (round_fields table_sel target_count
              (after_rounds env p table_sel target_count n))
    as (_ & _ & _ & _ & _ & _ & Hb & _).
  rewrite Hb, after_rounds_S. unfold scrolled_in.
  by replace (S n - 1)%nat with n by lia.
Qed.

Lemma products_after_S n :
  products (after_rounds env p table_sel target_count (S n))
  = products (after_rounds env p table_sel target_count n)
    ++ fst (collect_rows (rows_in env p table_sel target_count (S n))
                         (seen_ids (after_rounds env p table_sel target_count n))
                         []).
Proof.
  rewrite after_rounds_S. unfold advance, wait; simpl.
  destruct (round_fields table_sel target_count
              (after_rounds env p table_sel target_count n))
    as (_ & Hp & _).
  rewrite Hp. unfold rows_in. by replace (S n - 1)%nat with n by lia.
Qed.

Lemma seen_after_S n :
  seen_ids (after_rounds env p table_sel target_count (S n))
  = snd (collect_rows (rows_in env p table_sel target_count (S n))
                      (seen_ids (after_rounds env p table_sel target_count n))
                      []).
Proof.
  rewrite after_rounds_S. unfold advance, wait; simpl.
  destruct (round_fields table_sel target_count
              (after_rounds env p table_sel target_count n))
    as (_ & _ & Hs & _).
  rewrite Hs. unfold rows_in. by replace (S n - 1)%nat with n by lia.
Qed.

(** No line [Stopping] is printed while no round breaks. *)
Lemma quiet_while_running n :
  (forall i, (i < n)%nat ->
     breaks table_sel target_count
            (after_rounds env p table_sel target_count i) = false) ->
  Stopping ∉ printed (after_rounds env p table_sel target_count n).
Proof.
  induction n as [|n IH]; intros Hnb.
  - unfold after_rounds, enter; simpl. by intros ?%list_elem_of_singleton.
  - rewrite after_rounds_S. unfold advance, wait; simpl.
    destruct (round_fields table_sel target_count
                (after_rounds env p table_sel target_count n))
      as (_ & _ & _ & _ & _ & _ & _ & Hpr).
    rewrite Hpr, (Hnb n) by lia.
    assert (Stopping ∉ printed (after_rounds env p table_sel target_count n))
      by (apply IH; intros; apply Hnb; lia).
    rewrite !not_elem_of_app.
    destruct (Nat.eqb _ 0); repeat split;
      first [done | apply not_elem_of_nil | by intros ?%list_elem_of_singleton].
Qed.

Lemma nat_div_25_step n :
  (S n / 25)%nat
  = if Nat.eqb (S n mod 25) 0 then S (n / 25) else (n / 25)%nat.
Proof.
  pose proof (Nat.div_mod_eq n 25) as Hn.
  pose proof (Nat.mod_upper_bound n 25 ltac:(lia)) as Hr.
  destruct (decide (n mod 25 = 24)%nat) as [H24|H24].
  - assert (Hd : (S n / 25 = S (n / 25))%nat)
      by (symmetry; apply (Nat.div_unique (S n) 25 (S (n / 25)) 0); lia).
    assert (Hm : (S n mod 25 = 0)%nat)
      by (symmetry; apply (Nat.mod_unique (S n) 25 (S (n / 25)) 0); lia).
    by rewrite Hm, Hd.
  - assert (Hd : (S n / 25 = n / 25)%nat)
      by (symmetry; apply (Nat.div_unique (S n) 25 (n / 25) (S (n mod 25)));
          lia).
    assert (Hm : (S n mod 25 = S (n mod 25))%nat)
      by (symmetry; apply (Nat.mod_unique (S n) 25 (n / 25) (S (n mod 25)));
          lia).
    by rewrite Hm, Hd.
Qed.

(** While no round breaks, the start line is followed by one progress line
    for every 25 rounds. *)
Lemma printed_while_running n :
  (forall i, (i < n)%nat ->
     breaks table_sel target_count
            (after_rounds env p table_sel target_count i) = false) ->
  exists ps,
    printed (after_rounds env p table_sel target_count n)
    = StartingCollection target_count :: ps
    /\ length ps = (n / 25)%nat
    /\ Forall is_progress ps.
Proof.
  induction n as [|n IH]; intros Hnb.
  - exists []. by repeat split.
  - destruct IH as (ps & Hps & Hlen & Hall); [intros; apply Hnb; lia|].
    rewrite after_rounds_S. unfold advance, wait; cbn [printed].
    destruct (round_fields table_sel target_count
                (after_rounds env p table_sel target_count n))
      as (_ & _ & _ & _ & _ & _ & _ & Hpr).
    rewrite Hpr, (Hnb n) by lia. rewrite after_rounds_attempts, app_nil_r, Hps.
    destruct (Nat.eqb (S n mod 25) 0) eqn:Hmod.
    + eexists (ps ++ [_]). split; [reflexivity|].
      rewrite nat_div_25_step, Hmod, length_app, Hlen.
      split; [cbn [length]; lia|].
      apply Forall_app. split; [done|]. by repeat constructor.
    + exists ps. rewrite app_nil_r, nat_div_25_step, Hmod. by repeat split.
Qed.

(** Every run returns; this is how. *)
Lemma run_spec :
  exists h,
    scroll_and_collect_all env p table_sel target_count = Some h
    /\ (rounds h <= safety_ceiling)%nat
    /\ returned h
       = products (after_rounds env p table_sel target_count (rounds h))
    /\ (forall i, (i < rounds h - 1)%nat ->
          breaks table_sel target_count
                 (after_rounds env p table_sel target_count i) = false)
    /\ ((reason h = Exhausted /\ (1 <= rounds h)%nat
         /\ breaks table_sel target_count
              (after_rounds env p table_sel target_count (rounds h - 1)) = true
         /\ Stopping ∈ output h)
        \/ (reason h = SafetyCeilingReached /\ rounds h = safety_ceiling
            /\ (forall i, (i < rounds h)%nat ->
                  breaks table_sel target_count
                         (after_rounds env p table_sel target_count i) = false)
            /\ Stopping ∉ output h)).
Proof.
  unfold scroll_and_collect_all.
  destruct (while_loop_result env table_sel target_count (S safety_ceiling)
              (enter env p table_sel target_count))
    as (st & why & m & Hrun & Hnb & Hcase);
    [change (attempts (enter env p table_sel target_count)) with O; lia ..|].
  change (attempts (enter env p table_sel target_count)) with O in Hcase.
  rewrite Hrun. simpl.
  exists (finish (st, why)). split; [done|]. simpl.
  assert (Hfold : forall n,
            state_after env table_sel target_count
                        (enter env p table_sel target_count) n
            = after_rounds env p table_sel target_count n) by done.
  setoid_rewrite Hfold in Hnb. rewrite !Hfold in Hcase. clear Hfold.
  destruct Hcase as [(-> & Hb & -> & Hat & Hle)|(-> & -> & Hat)].
  - rewrite round_attempts, after_rounds_attempts in *.
    replace (S m - 1)%nat with m by lia.
    split; [lia|]. split.
    { rewrite after_rounds_S. by unfold advance, wait. }
    split; [done|]. left. repeat split; try done; [lia|].
    destruct (round_fields table_sel target_count
                (after_rounds env p table_sel target_count m))
      as (_ & _ & _ & _ & _ & _ & _ & Hpr).
    rewrite Hpr, Hb, !elem_of_app, list_elem_of_singleton. tauto.
  - rewrite after_rounds_attempts in *. subst m.
    split; [lia|]. split; [done|].
    split; [intros; apply Hnb; lia|]. right. repeat split; try done.
    pose proof (quiet_while_running safety_ceiling Hnb).
    rewrite not_elem_of_app. split; [done|].
    by intros ?%list_elem_of_singleton.
Qed.

(** A run in which no round breaks goes all the way to the ceiling. *)
Lemma unbroken_run :
  (forall i, (1 <= i <= safety_ceiling)%nat ->
     did_not_move (scrolled_in env p table_sel target_count i)
     && at_bottom (scrolled_in env p table_sel target_count i) = false) ->
  exists h,
    scroll_and_collect_all env p table_sel target_count = Some h
    /\ rounds h = safety_ceiling
    /\ reason h = SafetyCeilingReached
    /\ Stopping ∉ output h.
Proof.
  intros Hnever.
  destruct run_spec as (h & Hrun & Hle & _ & _ & Hcase).
  exists h. split; [done|].
  destruct Hcase as [(_ & Hge & Hb & _)|(? & ? & _ & ?)]; [|done].
  rewrite breaks_after in Hb.
  specialize (Hnever (S (rounds h - 1)) ltac:(lia)).
  rewrite andb_assoc, Hnever in Hb. done.
Qed.

(** The closing line comes last and carries the number of records returned
    and the number of rounds; a run that leaves through the loop condition
    has printed nothing else after its last round. *)
Lemma run_output :
  exists h,
    scroll_and_collect_all env p table_sel target_count = Some h
    /\ last (output h)
       = Some (CollectionComplete (length (returned h)) (rounds h))
    /\ (reason h = SafetyCeilingReached ->
        output h
        = printed (after_rounds env p table_sel target_count (rounds h))
          ++ [CollectionComplete (length (returned h)) (rounds h)]).
Proof.
  unfold scroll_and_collect_all.
  destruct (while_loop_result env table_sel target_count (S safety_ceiling)
              (enter env p table_sel target_count))
    as (st & why & m & Hrun & Hnb & Hcase);
    [change (attempts (enter env p table_sel target_count)) with O; lia ..|].
  rewrite Hrun. cbn [fmap option_fmap option_map].
  exists (finish (st, why)). split; [done|].
  cbn [finish output reason returned rounds].
  split; [apply last_snoc|]. intros ->.
  destruct Hcase as [(? & _)|(_ & -> & _)]; [done|].
  rewrite state_after_attempts. done.
Qed.

End Runs.

Lemma safety_ceiling_value : Z.of_nat safety_ceiling = 20000.
Proof. by vm_compute. Qed.

(** A scroll script that reports [ok:false] has changed nothing. *)
Lemma scroll_script_not_ok sel q reason :
  snd (scroll_script sel q) = NotOk reason -> fst (scroll_script sel q) = q.
Proof.
  unfold scroll_script.
  destruct (querySelector q sel) as [t|]; [|done].
  by destruct (getScroller (bodyId q) t).
Qed.

(** On a page that does not re-render and has nothing to scroll, every
    round sees the page the loop was entered with. *)
Lemma page_stays env p sel tc reason :
  (forall n q, settle env n q = q) ->
  snd (scroll_script sel (page (enter env p sel tc))) = NotOk reason ->
  forall n, page (after_rounds env p sel tc n) = page (enter env p sel tc).
Proof.
  intros Hstill Hno n. induction n as [|n IH]; [done|].
  rewrite after_rounds_S. unfold advance, wait; simpl.
  rewrite Hstill.
  destruct (round_fields sel tc (after_rounds env p sel tc n))
    as (_ & _ & _ & Hpg & _).
  rewrite Hpg, IH. by apply scroll_script_not_ok with reason.
Qed.

(** C1 (the code departs from the claim): on a table with no rows and no
    scrollable ancestor or descendant the scroll step reports "no-scroller"
    in every round, and the loop does not stop after six rounds with
    exhaustion: it runs all 20000 rounds and leaves through the safety
    ceiling, with nothing harvested. *)
Theorem C1_no_scroller_runs_to_the_ceiling :
  (forall i, scrolled_in still bare_page "table" 2849 i = NotOk "no-scroller")
  /\ exists h,
       scroll_and_collect_all still bare_page "table" 2849 = Some h
       /\ returned h = []
       /\ Z.of_nat (rounds h) = 20000
       /\ reason h = SafetyCeilingReached.
Proof.
  assert (Hpage : forall n,
            page (after_rounds still bare_page "table" 2849 n) = bare_page).
  { intros n. by rewrite (page_stays still bare_page "table" 2849 "no-scroller"). }
  assert (Hsc : forall i,
            scrolled_in still bare_page "table" 2849 i = NotOk "no-scroller").
  { intros i. unfold scrolled_in. by rewrite Hpage. }
  split; [done|].
  destruct (unbroken_run still bare_page "table" 2849) as (h & Hrun & Hn & Hwhy & _).
  { intros i _. rewrite Hsc. done. }
  exists h. split; [exact Hrun|]. split; [|split; [|exact Hwhy]].
  - destruct (run_spec still bare_page "table" 2849) as (h' & Hrun' & _ & Hret & _).
    rewrite Hrun in Hrun'. injection Hrun' as <-. rewrite Hret.
    generalize (rounds h). intros n. induction n as [|n IH]; [done|].
    rewrite products_after_S, IH. unfold rows_in. by rewrite Hpage.
  - rewrite Hn. apply safety_ceiling_value.
Qed.

(** ** Progress accounting *)

Section Progress.
Variables (env : Env) (p : Page) (table_sel : string) (target_count : Z).

Lemma collected_grows n :
  (collected_by env p table_sel target_count n
   <= collected_by env p table_sel target_count (S n))%nat.
Proof.
  unfold collected_by. rewrite products_after_S, length_app. lia.
Qed.

(** [last_count] is [len(products)] whenever a round is over. *)
Lemma last_count_after n :
  last_count (after_rounds env p table_sel target_count n)
  = collected_by env p table_sel target_count n.
Proof.
  induction n as [|n IH]; [done|].
  pose proof (collected_grows n) as Hle.
  unfold collected_by in *. rewrite after_rounds_S in *.
  unfold advance, wait in *; simpl in *.
  destruct (round_fields table_sel target_count
              (after_rounds env p table_sel target_count n))
    as (_ & _ & _ & _ & Hlast & _).
  rewrite Hlast, IH. lia.
Qed.

(** The counter is reset by a round that grows the list, and incremented
    by any other. *)
Lemma no_progress_after n :
  no_progress_rounds (after_rounds env p table_sel target_count (S n))
  = if Nat.ltb (collected_by env p table_sel target_count n)
               (collected_by env p table_sel target_count (S n))
    then O
    else S (no_progress_rounds (after_rounds env p table_sel target_count n)).
Proof.
  rewrite <- last_count_after. unfold collected_by.
  rewrite after_rounds_S. unfold advance, wait; simpl.
  by destruct (round_fields table_sel target_count
                 (after_rounds env p table_sel target_count n))
    as (_ & _ & _ & _ & _ & Hnp & _).
Qed.

Lemma stalled_rounds_counted r k :
  (forall i, (r < i <= r + k)%nat ->
     collected_by env p table_sel target_count i
     = collected_by env p table_sel target_count r) ->
  (k <= no_progress_rounds
          (after_rounds env p table_sel target_count (r + k)))%nat.
Proof.
  induction k as [|k IH]; intros Hsame; [lia|].
  replace (r + S k)%nat with (S (r + k)) by lia.
  rewrite no_progress_after.
  assert (Hk : (k <= no_progress_rounds
                       (after_rounds env p table_sel target_count (r + k)))%nat)
    by (apply IH; intros; apply Hsame; lia).
  assert (Heq : collected_by env p table_sel target_count (S (r + k))
                = collected_by env p table_sel target_count (r + k)).
  { rewrite (Hsame (S (r + k))) by lia.
    destruct k as [|k']; [by replace (r + 0)%nat with r by lia|].
    symmetry. apply Hsame. lia. }
  rewrite Heq, Nat.ltb_irrefl. lia.
Qed.

End Progress.

(** C4 (the code departs from the claim): one row, fully rendered, in a
    scroller one and a half viewports tall that the widget pulls back a
    little during each of the first ten waits.  The scroll step reports the
    bottom reached ([now >= max]) in every round, and no new row is accepted
    after round 1, so that round 6 ends at the bottom with five rounds
    without progress.  The loop does not stop there, nor in any round in
    which the scroller has moved: it stops in round 12, not by round
    1 + 5. *)
Theorem C4_at_bottom_and_idle_yet_running :
  List.map (scrolled_in nudging short_page "table" 2849) (seq 1 12)
    = [Ok 0 50 50; Ok 40 50 50; Ok 40 50 50; Ok 40 50 50; Ok 40 50 50;
       Ok 40 50 50; Ok 40 50 50; Ok 40 50 50; Ok 40 50 50; Ok 40 50 50;
       Ok 40 50 50; Ok 50 50 50]
  /\ List.map (fun i => at_bottom (scrolled_in nudging short_page "table" 2849 i))
              (seq 1 12)
     = repeat true 12
  /\ List.map (collected_by nudging short_page "table" 2849) (seq 1 12)
     = repeat 1%nat 12
  /\ List.map (fun i => no_progress_rounds
                          (after_rounds nudging short_page "table" 2849 i))
              (seq 1 11)
     = [0; 1; 2; 3; 4; 5; 6; 7; 8; 9; 10]%nat
  /\ List.map (fun i => breaks "table" 2849
                          (after_rounds nudging short_page "table" 2849 (i - 1)))
              (seq 1 12)
     = repeat false 11 ++ [true]
  /\ returned <$> scroll_and_collect_all nudging short_page "table" 2849
     = Some [make_item "A" ["A"; "chair"]]
  /\ rounds <$> scroll_and_collect_all nudging short_page "table" 2849
     = Some 12%nat
  /\ reason <$> scroll_and_collect_all nudging short_page "table" 2849
     = Some Exhausted
  /\ ~ (12 <= 1 + 5)%nat.
Proof.
  split; [by vm_compute|]. split; [by vm_compute|].
  split; [by vm_compute|]. split; [by vm_compute|].
  split; [by vm_compute|]. split; [by vm_compute|].
  split; [by vm_compute|]. split; [by vm_compute|]. lia.
Qed.

(** ** The target-count hint *)

Lemma round_hint sel t1 t2 st1 st2 :
  silent st1 = silent st2 ->
  silent (fst (round sel t1 st1)) = silent (fst (round sel t2 st2))
  /\ snd (round sel t1 st1) = snd (round sel t2 st2).
Proof.
  destruct st1, st2; unfold silent; simpl. intros [= -> -> -> -> -> ->].
  unfold round; simpl.
  destruct (extract_new_products _ _ _) as [[p1 new] seen'].
  destruct (Nat.ltb _ _); destruct (scroll_script sel p1) as [p2 sc]; done.
Qed.

Lemma while_loop_hint env sel t1 t2 fuel : forall st1 st2,
  silent st1 = silent st2 ->
  match while_loop fuel env sel t1 st1, while_loop fuel env sel t2 st2 with
  | Some (s1, why1), Some (s2, why2) => silent s1 = silent s2 /\ why1 = why2
  | None, None => True
  | _, _ => False
  end.
Proof.
  induction fuel as [|fuel IH]; intros st1 st2 Hs; [done|].
  rewrite !while_loop_step.
  assert (Hat : attempts st1 = attempts st2)
    by (by injection Hs).
  rewrite Hat.
  destruct (Nat.ltb (attempts st2) safety_ceiling); [|done].
  destruct (round_hint sel t1 t2 st1 st2 Hs) as [Hst Hb].
  unfold breaks. rewrite Hb.
  destruct (snd (round sel t2 st2)); [done|].
  apply IH. unfold advance, wait, silent in *; simpl.
  by injection Hst as -> -> -> -> -> ->.
Qed.

(** C8: two runs that differ only in the target-count hint return the same
    records, after the same number of rounds, for the same reason (and
    leave the page in the same state); both runs return. *)
Theorem C8_hint_is_advisory env p table_sel (hint1 hint2 : Z) :
  exists h1 h2,
    scroll_and_collect_all env p table_sel hint1 = Some h1
    /\ scroll_and_collect_all env p table_sel hint2 = Some h2
    /\ returned h1 = returned h2
    /\ rounds h1 = rounds h2
    /\ reason h1 = reason h2
    /\ final_page h1 = final_page h2.
Proof.
  destruct (run_spec env p table_sel hint1) as (h1 & Hrun1 & _).
  destruct (run_spec env p table_sel hint2) as (h2 & Hrun2 & _).
  exists h1, h2. split; [done|]. split; [done|].
  unfold scroll_and_collect_all in *.
  pose proof (while_loop_hint env table_sel hint1 hint2 (S safety_ceiling)
                (enter env p table_sel hint1) (enter env p table_sel hint2)
                eq_refl) as Hboth.
  destruct (while_loop (S safety_ceiling) env table_sel hint1 _)
    as [[s1 why1]|]; [|done].
  destruct (while_loop (S safety_ceiling) env table_sel hint2 _)
    as [[s2 why2]|]; [|done].
  destruct Hboth as [Hs ->].
  injection Hrun1 as <-. injection Hrun2 as <-. simpl.
  injection Hs; intros. repeat split; congruence.
Qed.

(** What the hint does change is the printed output. *)
Example hint_is_printed :
  output <$> scroll_and_collect_all still short_page "table" 10
  = Some [StartingCollection 10; Stopping; CollectionComplete 1 6]
  /\ output <$> scroll_and_collect_all still short_page "table" 20
     = Some [StartingCollection 20; Stopping; CollectionComplete 1 6].
Proof. split; by vm_compute. Qed.

(** ** Deduplication *)

Lemma collect_rows_acc rows : forall seen acc,
  collect_rows rows seen acc
  = (acc ++ fst (collect_rows rows seen []), snd (collect_rows rows seen [])).
Proof.
  induction rows as [|cells rows IH]; intros seen acc; simpl.
  - by rewrite app_nil_r.
  - destruct cells as [|row_id tl]; [apply IH|].
    destruct (String.eqb row_id "" || bool_decide (row_id ∈ seen)); [apply IH|].
    rewrite IH, (IH _ [make_item row_id (row_id :: tl)]); simpl.
    by rewrite <- app_assoc.
Qed.

Lemma collect_rows_app rows1 rows2 seen :
  collect_rows (rows1 ++ rows2) seen []
  = (fst (collect_rows rows1 seen [])
     ++ fst (collect_rows rows2 (snd (collect_rows rows1 seen [])) []),
     snd (collect_rows rows2 (snd (collect_rows rows1 seen [])) [])).
Proof.
  revert seen. induction rows1 as [|cells rows1 IH]; intros seen; simpl.
  - by destruct (collect_rows rows2 seen []).
  - destruct cells as [|row_id tl]; [apply IH|].
    destruct (String.eqb row_id "" || bool_decide (row_id ∈ seen)); [apply IH|].
    rewrite collect_rows_acc, IH; simpl.
    rewrite (collect_rows_acc rows1 _ [_]); simpl. done.
Qed.

(** The ids of the items [collect_rows] builds are the keys it accepts. *)
Lemma collect_rows_ids rows : forall seen,
  item_id <$> fst (collect_rows rows seen []) = accept_keys seen (row_keys rows)
  /\ snd (collect_rows rows seen [])
     = list_to_set (accept_keys seen (row_keys rows)) ∪ seen.
Proof.
  induction rows as [|cells rows IH]; intros seen; simpl.
  - split; [done|set_solver].
  - destruct cells as [|row_id tl]; simpl; [apply IH|].
    destruct (String.eqb row_id "" || bool_decide (row_id ∈ seen)); [apply IH|].
    rewrite collect_rows_acc. cbn [fst snd app]. rewrite fmap_cons.
    destruct (IH ({[row_id]} ∪ seen)) as [-> ->]. split; [done|set_solver].
Qed.

Lemma accept_keys_elem keys : forall seen k,
  k ∈ accept_keys seen keys <-> k ∈ keys /\ k <> "" /\ k ∉ seen.
Proof.
  induction keys as [|x keys IH]; intros seen k; simpl; [set_solver|].
  destruct (String.eqb x "") eqn:He; simpl.
  - apply String.eqb_eq in He. subst x. rewrite IH, elem_of_cons.
    split; [tauto|]. intros ([->|?] & ? & ?); tauto.
  - apply String.eqb_neq in He. case_bool_decide.
    + rewrite IH, elem_of_cons. split; [tauto|].
      intros ([->|?] & ? & ?); tauto.
    + rewrite !elem_of_cons, IH, not_elem_of_union, elem_of_singleton. split.
      * intros [->|(? & ? & ? & ?)]; [split; [by left|done]|tauto].
      * intros ([->|?] & ? & ?); [by left|].
        destruct (decide (k = x)) as [->|]; [by left|by right].
Qed.

Lemma accept_keys_NoDup keys : forall seen, NoDup (accept_keys seen keys).
Proof.
  induction keys as [|x keys IH]; intros seen; simpl; [constructor|].
  destruct (String.eqb x "" || bool_decide (x ∈ seen)); [apply IH|].
  constructor; [|apply IH]. rewrite accept_keys_elem. set_solver.
Qed.

Lemma first_index_cons_ne x k l :
  x <> k -> first_index k (x :: l) = S (first_index k l).
Proof. intros Hne. simpl. apply String.eqb_neq in Hne. by rewrite Hne. Qed.

(** Accepted keys come out in the order of their first occurrences. *)
Lemma accept_keys_order keys : forall seen i j ki kj,
  accept_keys seen keys !! i = Some ki ->
  accept_keys seen keys !! j = Some kj ->
  (i < j)%nat ->
  (first_index ki keys < first_index kj keys)%nat.
Proof.
  induction keys as [|x keys IH]; intros seen i j ki kj Hi Hj Hlt; [done|].
  assert (Hskip : forall s i' j',
                    accept_keys s keys !! i' = Some ki ->
                    accept_keys s keys !! j' = Some kj ->
                    (i' < j')%nat -> x <> ki -> x <> kj ->
                    (first_index ki (x :: keys) < first_index kj (x :: keys))%nat).
  { intros s i' j' Hi' Hj' ? ? ?. rewrite !first_index_cons_ne by done.
    apply ->Nat.succ_lt_mono. by apply (IH s i' j'). }
  assert (Hin : forall s n k, accept_keys s keys !! n = Some k ->
                  k <> "" /\ k ∉ s).
  { intros s n k Hn. apply list_elem_of_lookup_2 in Hn.
    apply accept_keys_elem in Hn. tauto. }
  simpl in Hi, Hj.
  destruct (String.eqb x "") eqn:He; simpl in Hi, Hj.
  - apply String.eqb_eq in He. subst x.
    apply (Hskip seen i j); try done.
    + intros <-. by destruct (Hin _ _ _ Hi).
    + intros <-. by destruct (Hin _ _ _ Hj).
  - case_bool_decide as Hseen.
    + apply (Hskip seen i j); try done.
      * intros <-. by destruct (Hin _ _ _ Hi).
      * intros <-. by destruct (Hin _ _ _ Hj).
    + destruct j as [|j]; [lia|]. simpl in Hj.
      assert (x <> kj) by (intros <-; destruct (Hin _ _ _ Hj); set_solver).
      destruct i as [|i]; simpl in Hi.
      * injection Hi as <-. rewrite (first_index_cons_ne x kj) by done.
        simpl. rewrite String.eqb_refl. lia.
      * assert (x <> ki) by (intros <-; destruct (Hin _ _ _ Hi); set_solver).
        apply (Hskip ({[x]} ∪ seen) i j); try done. lia.
Qed.

Lemma accept_keys_length keys seen :
  length (accept_keys seen keys)
  = size (list_to_set keys ∖ ({[""]} ∪ seen) : gset string).
Proof.
  rewrite <- (size_list_to_set (C := gset string)) by apply accept_keys_NoDup.
  f_equal. apply set_eq. intros k.
  rewrite elem_of_list_to_set, accept_keys_elem. set_solver.
Qed.

(** Every item built is the image of one of the offered rows. *)
Lemma collect_rows_items rows : forall seen it,
  it ∈ fst (collect_rows rows seen []) ->
  cells it ∈ rows
  /\ head (cells it) = Some (item_id it)
  /\ it = make_item (item_id it) (cells it).
Proof.
  induction rows as [|row rows IH]; intros seen it Hin; simpl in Hin.
  - by apply elem_of_nil in Hin.
  - assert (Hrest : forall s, it ∈ fst (collect_rows rows s []) ->
                      cells it ∈ row :: rows
                      /\ head (cells it) = Some (item_id it)
                      /\ it = make_item (item_id it) (cells it)).
    { intros s Hs. destruct (IH s it Hs) as (? & ? & ?).
      split; [by apply elem_of_cons; right|done]. }
    destruct row as [|row_id tl]; [by apply (Hrest seen)|].
    destruct (String.eqb row_id "" || bool_decide (row_id ∈ seen));
      [by apply (Hrest seen)|].
    rewrite collect_rows_acc in Hin. cbn [fst app] in Hin.
    apply elem_of_cons in Hin as [->|Hin]; [|by apply (Hrest _ Hin)].
    simpl. split; [by apply elem_of_cons; left|done].
Qed.

Section Offered.
Variables (env : Env) (p : Page) (table_sel : string) (target_count : Z).

Lemma offered_S n :
  offered env p table_sel target_count (S n)
  = offered env p table_sel target_count n
    ++ rows_in env p table_sel target_count (S n).
Proof.
  unfold offered. rewrite seq_S, flat_map_app. simpl. by rewrite app_nil_r.
Qed.

(** What has been harvested after [n] rounds is what [collect_rows] makes
    of all the rows offered so far, starting from an empty [seen_ids]. *)
Lemma harvested_after n :
  products (after_rounds env p table_sel target_count n)
  = fst (collect_rows (offered env p table_sel target_count n) ∅ [])
  /\ seen_ids (after_rounds env p table_sel target_count n)
     = snd (collect_rows (offered env p table_sel target_count n) ∅ []).
Proof.
  induction n as [|n [IHp IHs]]; [done|].
  rewrite products_after_S, seen_after_S, offered_S, collect_rows_app.
  cbn [fst snd]. by rewrite IHp, IHs.
Qed.

End Offered.

(** C2: in every run, the ids of the returned records are the distinct
    non-empty first cells of the rows offered over its rounds, each exactly
    once and in the order of first encounter; no record has an empty id; the
    number of records is the number of distinct non-empty keys offered; and
    each record is built from an offered row. *)
Theorem C2_first_encounter_dedup env p table_sel target_count :
  exists h,
    scroll_and_collect_all env p table_sel target_count = Some h
    /\ let keys := row_keys (offered env p table_sel target_count (rounds h)) in
       let ids := item_id <$> returned h in
       NoDup ids
       /\ (forall k, k ∈ ids <-> k ∈ keys /\ k <> "")
       /\ (forall i j ki kj,
             ids !! i = Some ki -> ids !! j = Some kj -> (i < j)%nat ->
             (first_index ki keys < first_index kj keys)%nat)
       /\ length (returned h) = size (list_to_set keys ∖ {[""]} : gset string)
       /\ (forall it, it ∈ returned h ->
             cells it ∈ offered env p table_sel target_count (rounds h)
             /\ head (cells it) = Some (item_id it)).
Proof.
  destruct (run_spec env p table_sel target_count) as (h & Hrun & _ & Hret & _).
  exists h. split; [done|]. cbn zeta.
  destruct (harvested_after env p table_sel target_count (rounds h)) as [Hp _].
  rewrite Hret, Hp.
  destruct (collect_rows_ids (offered env p table_sel target_count (rounds h)) ∅)
    as [Hids _].
  rewrite Hids. split; [apply accept_keys_NoDup|]. split.
  { intros k. rewrite accept_keys_elem. set_solver. }
  split; [apply accept_keys_order|]. split.
  { rewrite <- (length_fmap item_id), Hids, accept_keys_length.
    by rewrite (right_id_L ∅ (∪)). }
  intros it Hin. apply collect_rows_items in Hin. tauto.
Qed.

(** ** Records built from short rows *)

(** C10: a row with fewer than 7 cells whose first cell is non-empty and
    not yet seen is accepted: the record is appended, its id is the first
    cell, its [cells] field is the row as extracted, the projections at
    positions the row does not have are the empty string, and those it has
    are the cells at these positions. *)
Theorem C10_short_rows_accepted row_id tail rest seen acc :
  let row := row_id :: tail in
  (length row < 7)%nat ->
  row_id <> "" ->
  row_id ∉ seen ->
  exists it,
    fst (collect_rows (row :: rest) seen acc) !! length acc = Some it
    /\ item_id it = row_id
    /\ cells it = row
    /\ (forall k, (1 <= k <= 6)%nat -> (length row <= k)%nat ->
          projection k it = "")
    /\ (forall k, (1 <= k < length row)%nat ->
          row !! k = Some (projection k it)).
Proof.
  intros row Hlen Hid Hseen. exists (make_item row_id row).
  split; [|split; [done|split; [done|split]]].
  - simpl. apply String.eqb_neq in Hid. rewrite Hid.
    rewrite bool_decide_eq_false_2 by done. simpl.
    rewrite collect_rows_acc. cbn [fst].
    rewrite <- app_assoc. rewrite lookup_app_r by lia.
    by replace (length acc - length acc)%nat with O by lia.
  - intros k [Hk1 Hk6] Hshort.
    assert (Hcell : cell_or_empty k row = "").
    { unfold cell_or_empty. apply Nat.ltb_ge in Hshort. by rewrite Hshort. }
    do 7 (destruct k as [|k]; [first [lia | exact Hcell]|]). lia.
  - intros k [Hk1 Hklen].
    assert (Hcell : row !! k = Some (cell_or_empty k row)).
    { unfold cell_or_empty. pose proof Hklen as Hlt.
      apply Nat.ltb_lt in Hlt. rewrite Hlt.
      destruct (lookup_lt_is_Some_2 row k Hklen) as [c Hc]. by rewrite Hc. }
    do 7 (destruct k as [|k]; [first [lia | exact Hcell]|]). lia.
Qed.

Lemma C10_short_rows_accepted_witness :
  exists it,
    fst (collect_rows (["A"; "chair"] :: []) ∅ []) !! length (@nil Item) = Some it
    /\ item_id it = "A"
    /\ cells it = ["A"; "chair"]
    /\ (forall k, (1 <= k <= 6)%nat -> (length ["A"; "chair"] <= k)%nat ->
          projection k it = "")
    /\ (forall k, (1 <= k < length ["A"; "chair"])%nat ->
          ["A"; "chair"] !! k = Some (projection k it)).
Proof.
  apply (C10_short_rows_accepted "A" ["chair"] [] ∅ []).
  - simpl; lia.
  - discriminate.
  - apply not_elem_of_empty.
Defined.

(** ** Two extractions in succession *)

Lemma collect_rows_nothing_new rows : forall seen acc,
  (forall k, k ∈ row_keys rows -> k = "" \/ k ∈ seen) ->
  collect_rows rows seen acc = (acc, seen).
Proof.
  induction rows as [|row rows IH]; intros seen acc Hold; [done|].
  simpl. destruct row as [|row_id tl].
  - apply IH. intros k Hk. apply Hold. done.
  - assert (Hrest : forall k, k ∈ row_keys rows -> k = "" \/ k ∈ seen).
    { intros k Hk. apply Hold. simpl. by apply elem_of_cons; right. }
    destruct (Hold row_id) as [->|Hin]; [simpl; by apply elem_of_cons; left| |].
    + simpl. by apply IH.
    + rewrite (bool_decide_eq_true_2 _ Hin), orb_true_r. by apply IH.
Qed.

(** C6 (as stated, refuted): [extract_new_products] called twice in
    succession on an unchanged page does not return the same rows: the first
    call returns the row, the second returns nothing, because the call
    itself records the row's id in the [seen_ids] set it shares with its
    caller. *)
Lemma C6_second_extraction_differs :
  let first := extract_new_products tall_page "table" ∅ in
  let second := extract_new_products (fst (fst first)) "table" (snd first) in
  fst (fst first) = tall_page
  /\ snd (fst first) = [make_item "A" ["A"; "chair"]]
  /\ snd (fst second) = []
  /\ snd (fst first) <> snd (fst second).
Proof. cbn zeta. split; [done|]. split; [by vm_compute|]. split; by vm_compute. Qed.

(** C6 (amended): the read of the rendered rows leaves the page as it was
    and so returns the same rows when repeated; [extract_new_products] on top
    of it deduplicates against the [seen_ids] set it updates, so that a
    second call in succession on the unchanged page returns no row and
    leaves the set as the first call left it. *)
Theorem C6_extraction_twice p table_sel seen :
  let first := extract_new_products p table_sel seen in
  let second := extract_new_products (fst (fst first)) table_sel (snd first) in
  fst (rows_script table_sel p) = p
  /\ rows_script table_sel (fst (rows_script table_sel p))
     = rows_script table_sel p
  /\ fst (fst first) = p
  /\ snd (fst second) = []
  /\ snd second = snd first
  /\ fst (fst second) = p.
Proof.
  cbn zeta. unfold extract_new_products.
  pose proof (rows_script_page table_sel p) as Hp.
  destruct (rows_script table_sel p) as [p1 rows] eqn:Hrows.
  simpl in Hp. subst p1. simpl. rewrite Hrows.
  split; [done|]. split; [done|].
  destruct (collect_rows rows seen []) as [new seen'] eqn:Hc. simpl.
  rewrite Hrows.
  rewrite (collect_rows_nothing_new rows seen' []); [done|].
  intros k Hk. destruct (collect_rows_ids rows seen) as [_ Hs].
  rewrite Hc in Hs. simpl in Hs. subst seen'.
  destruct (decide (k = "")) as [|Hne]; [by left|right].
  destruct (decide (k ∈ seen)) as [|Hnew]; [set_solver|].
  apply elem_of_union_l, elem_of_list_to_set, accept_keys_elem. done.
Qed.

(** Rows that were just collected are all known. *)
Lemma collect_rows_again rows seen :
  collect_rows rows (snd (collect_rows rows seen [])) []
  = ([], snd (collect_rows rows seen [])).
Proof.
  apply collect_rows_nothing_new. intros k Hk.
  destruct (collect_rows_ids rows seen) as [_ ->].
  destruct (decide (k = "")) as [|Hne]; [by left|right].
  destruct (decide (k ∈ seen)) as [|Hnew]; [by apply elem_of_union_r|].
  by apply elem_of_union_l, elem_of_list_to_set, accept_keys_elem.
Qed.

(** ** The safety ceiling *)

(** The widget that snaps back offers its one row in every round; it is
    accepted in the first. *)
Lemma rewinding_harvest n :
  fst (collect_rows (offered rewinding tall_page "table" 2849 (S n)) ∅ [])
  = [make_item "A" ["A"; "chair"]].
Proof.
  destruct (harvested_after rewinding tall_page "table" 2849 (S n)) as [<- _].
  assert (Hrows : forall k,
            rows_in rewinding tall_page "table" 2849 (S k) = [["A"; "chair"]]).
  { intros k. unfold rows_in. replace (S k - 1)%nat with k by lia.
    destruct k as [|k]; [reflexivity|]. rewrite after_rounds_S. reflexivity. }
  assert (Hboth :
    products (after_rounds rewinding tall_page "table" 2849 (S n))
    = fst (collect_rows [["A"; "chair"]] ∅ [])
    /\ seen_ids (after_rounds rewinding tall_page "table" 2849 (S n))
       = snd (collect_rows [["A"; "chair"]] ∅ [])).
  { induction n as [|n [IHp IHs]].
    - by rewrite products_after_S, seen_after_S, Hrows.
    - rewrite (products_after_S _ _ _ _ (S n)), (seen_after_S _ _ _ _ (S n)).
      rewrite Hrows, IHp, IHs, collect_rows_again. cbn [fst snd].
      by rewrite app_nil_r. }
  destruct Hboth as [-> _]. reflexivity.
Qed.

(** C3: every run returns after at most 20000 rounds, with the records
    accepted from the rows offered in the rounds it ran; its last line of
    output gives their number and the number of rounds, and whether it left
    by exhaustion can be read off the output (the line printed on [break]).
    When in every round the scroller moves and stays short of its maximum,
    the run takes exactly 20000 rounds and leaves through the safety
    ceiling: it returns what 20000 rounds of extraction accepted, and prints
    the start line, 800 progress lines and the closing line, without the
    exhaustion line. *)
Theorem C3_safety_ceiling env p table_sel target_count :
  (exists h,
     scroll_and_collect_all env p table_sel target_count = Some h
     /\ Z.of_nat (rounds h) <= 20000
     /\ returned h
        = fst (collect_rows
                 (offered env p table_sel target_count (rounds h)) ∅ [])
     /\ last (output h)
        = Some (CollectionComplete (length (returned h)) (rounds h))
     /\ (reason h = Exhausted <-> Stopping ∈ output h)
     /\ (reason h = SafetyCeilingReached -> Z.of_nat (rounds h) = 20000))
  /\ ((forall i, 1 <= Z.of_nat i <= 20000 ->
         exists prev now max,
           scrolled_in env p table_sel target_count i = Ok prev now max
           /\ now < max /\ now <> prev) ->
      exists h ps,
        scroll_and_collect_all env p table_sel target_count = Some h
        /\ Z.of_nat (rounds h) = 20000
        /\ reason h = SafetyCeilingReached
        /\ (Stopping ∉ output h)
        /\ returned h
           = fst (collect_rows
                    (offered env p table_sel target_count (rounds h)) ∅ [])
        /\ output h
           = StartingCollection target_count
             :: (ps ++ [CollectionComplete (length (returned h)) (rounds h)])
        /\ Z.of_nat (length ps) = 800
        /\ Forall is_progress ps).
Proof.
  pose proof safety_ceiling_value as Hc.
  destruct (run_spec env p table_sel target_count)
    as (h & Hrun & Hle & Hret & _ & Hcase).
  destruct (run_output env p table_sel target_count)
    as (h' & Hrun' & Hlast & Hout).
  rewrite Hrun in Hrun'. injection Hrun' as <-.
  destruct (harvested_after env p table_sel target_count (rounds h))
    as [Hprod _].
  rewrite Hprod in Hret.
  split.
  - exists h. split; [done|]. split; [lia|]. split; [done|]. split; [done|].
    destruct Hcase as [(Hwhy & _ & _ & Hin)|(Hwhy & Hn & _ & Hno)];
      rewrite Hwhy; (split; [split|]); try done; intros _; lia.
  - intros Hmoving.
    destruct (unbroken_run env p table_sel target_count)
      as (h' & Hrun' & Hn & Hwhy & Hno).
    { intros i Hi. destruct (Hmoving i) as (prev & now & max & -> & Hlt & _);
        [lia|]. simpl. apply andb_false_intro2. unfold Z.geb.
      destruct (now ?= max) eqn:Hcmp; try done;
        [apply Z.compare_eq_iff in Hcmp | apply Z.compare_gt_iff in Hcmp]; lia. }
    rewrite Hrun in Hrun'. injection Hrun' as <-.
    destruct Hcase as [(Hex & _)|(_ & _ & Hnb & _)]; [congruence|].
    destruct (printed_while_running env p table_sel target_count (rounds h) Hnb)
      as (ps & Hps & Hlen & Hall).
    exists h, ps. split; [done|]. split; [lia|]. split; [done|].
    split; [done|]. split; [done|]. split.
    { rewrite (Hout Hwhy), Hps. done. }
    split; [|done]. rewrite Hlen, Hn. by vm_compute.
Qed.

Lemma C3_safety_ceiling_witness :
  (forall i, 1 <= Z.of_nat i <= 20000 ->
     exists prev now max,
       scrolled_in rewinding tall_page "table" 2849 i = Ok prev now max
       /\ now < max /\ now <> prev)
  /\ exists h ps,
       scroll_and_collect_all rewinding tall_page "table" 2849 = Some h
       /\ Z.of_nat (rounds h) = 20000
       /\ reason h = SafetyCeilingReached
       /\ (Stopping ∉ output h)
       /\ returned h = [make_item "A" ["A"; "chair"]]
       /\ output h
          = StartingCollection 2849
            :: (ps ++ [CollectionComplete 1 (rounds h)])
       /\ Z.of_nat (length ps) = 800
       /\ Forall is_progress ps.
Proof.
  assert (H : forall i, 1 <= Z.of_nat i <= 20000 ->
            exists prev now max,
              scrolled_in rewinding tall_page "table" 2849 i = Ok prev now max
              /\ now < max /\ now <> prev).
  { intros i _. exists 0, 100, 800.
    split; [|lia].
    unfold scrolled_in. destruct (i - 1)%nat as [|k]; [reflexivity|].
    rewrite after_rounds_S. reflexivity. }
  split; [exact H|].
  destruct (proj2 (C3_safety_ceiling rewinding tall_page "table" 2849) H)
    as (h & ps & Hrun & Hn & Hwhy & Hno & Hret & Hout & Hlen & Hall).
  assert (Hitem : returned h = [make_item "A" ["A"; "chair"]]).
  { rewrite Hret. destruct (rounds h) as [|n]; [lia|].
    apply rewinding_harvest. }
  rewrite Hitem in Hout.
  exists h, ps.
  exact (conj Hrun (conj Hn (conj Hwhy (conj Hno (conj Hitem
          (conj Hout (conj Hlen Hall))))))).
Defined.

(** ** The banner pattern *)

(** With the pattern of line 387, group 1 always starts with a backslash. *)
Lemma backslashed_skip p ps :
  in_group p = false -> backslashed ps -> backslashed (p :: ps).
Proof.
  intros Hout Hps s g. simpl. rewrite Hout.
  destruct (repeated p).
  - revert g. induction s as [|c s IH]; intros g; [done|].
    destruct (accepts (atom p) c); [|done].
    match goal with
    | |- context [match ?m with Some _ => _ | None => _ end] =>
        destruct m as [r|] eqn:Hmore
    end.
    + intros [= <-]. by apply IH.
    + destruct (match_here ps s) as [r|] eqn:Hrest; [|done].
      intros [= <-]. by apply (Hps s).
  - destruct s as [|c s]; [done|].
    destruct (accepts (atom p) c); [|done].
    destruct (match_here ps s) as [r|] eqn:Hrest; [|done].
    intros [= <-]. by apply (Hps s).
Qed.

Lemma backslashed_group ps :
  backslashed (mkPiece (Lit "\") false true :: ps).
Proof.
  intros s g. simpl. destruct s as [|c s]; [done|].
  destruct (Ascii.eqb c "\") eqn:Hc; [|done].
  apply Ascii.eqb_eq in Hc. subst c.
  destruct (match_here ps s) as [r|]; [|done].
  intros [= <-]. by exists r.
Qed.

Lemma banner_pattern_backslashed : backslashed (re_compile banner_pattern).
Proof.
  vm_compute re_compile.
  repeat (apply backslashed_skip; [reflexivity|]).
  apply backslashed_group.
Qed.

Lemma drop_py_spaces_last l c :
  is_py_space c = false -> exists l', drop_py_spaces (l ++ [c]) = l' ++ [c].
Proof.
  intros Hc. induction l as [|x l IH]; simpl.
  - rewrite Hc. by exists [].
  - destruct (is_py_space x); [done|]. by exists (x :: l).
Qed.

(** [int] raises on any text that starts with a backslash. *)
Lemma py_int_backslash g : py_int (String "\" g) = None.
Proof.
  unfold py_int. cbn [list_ascii_of_string drop_py_spaces].
  change (is_py_space "\") with false. cbn iota.
  cbn [rev].
  destruct (drop_py_spaces_last (rev (list_ascii_of_string g)) "\" eq_refl)
    as [l' ->].
  by rewrite rev_app_distr.
Qed.

(** C7 (the code departs from the claim): on a page showing
    "Showing 10 of 500" the pattern of line 387 finds nothing, and the
    target count stays at its default instead of becoming 500; the pattern
    as the specification words it does give 500.  What the pattern of
    line 387 matches is text with backslashes in it, on which [int] then
    raises: whatever the page says, the target count is never taken from
    it. *)
Theorem C7_banner_is_not_detected :
  main_target_count "Showing 10 of 500" = Returned 2849
  /\ target_count_as_specified "Showing 10 of 500" = Returned 500
  /\ main_target_count "showing\s\d\sof\s\d" = Raised "ValueError"
  /\ forall page_text,
       main_target_count page_text = Returned 2849
       \/ main_target_count page_text = Raised "ValueError".
Proof.
  split; [by vm_compute|]. split; [by vm_compute|]. split; [by vm_compute|].
  intros page_text. unfold main_target_count, detect_target_count_with.
  destruct (re_search (re_compile banner_pattern) (lower page_text))
    as [g|] eqn:Hfound; [|by left].
  right.
  assert (Hg : exists g', g = String "\" g').
  { clear -Hfound. revert Hfound. generalize (lower page_text). intros s.
    induction s as [|c s IH]; cbn [re_search];
      (destruct (match_here (re_compile banner_pattern) _) as [r|] eqn:Hm;
       [intros [= <-]; exact (banner_pattern_backslashed _ _ Hm)|]).
    - done.
    - exact IH. }
  destruct Hg as [g' ->]. by rewrite py_int_backslash.
Qed.

(** ** The resolver *)

Lemma climb_spec body nodes :
  match climb body nodes with
  | Some e =>
      scrollable e = true
      /\ exists pre post,
           below_body body nodes = pre ++ e :: post
           /\ Forall (fun n => scrollable n = false) pre
  | None => Forall (fun n => scrollable n = false) (below_body body nodes)
  end.
Proof.
  induction nodes as [|node up IH]; simpl; [constructor|].
  destruct (Nat.eqb (nodeId node) body); [constructor|].
  destruct (scrollable node) eqn:Hs.
  - split; [done|]. exists [], (below_body body up). by split; [|constructor].
  - destruct (climb body up) as [e|].
    + destruct IH as (He & pre & post & -> & Hpre). split; [done|].
      exists (node :: pre), post. by split; [|constructor].
    + by constructor.
Qed.

Lemma find_spec (l : list Element) :
  match List.find scrollable l with
  | Some e =>
      scrollable e = true
      /\ exists pre post,
           l = pre ++ e :: post /\ Forall (fun n => scrollable n = false) pre
  | None => Forall (fun n => scrollable n = false) l
  end.
Proof.
  induction l as [|d l IH]; simpl; [constructor|].
  destruct (scrollable d) eqn:Hs.
  - split; [done|]. exists [], l. by split; [|constructor].
  - destruct (List.find scrollable l) as [e|].
    + destruct IH as (He & pre & post & -> & Hpre). split; [done|].
      exists (d :: pre), post. by split; [|constructor].
    + by constructor.
Qed.

(** C9 (as stated, refuted): the only scrollable element is the table's own
    [tbody], a descendant that satisfies the predicate by a wide margin; the
    fallback looks at [div] descendants only and the resolver reports that
    there is no scroller. *)
Lemma C9_tbody_scroller_not_found :
  inner tbody_table !! O = Some tbody_scroller
  /\ scrollable tbody_scroller = true
  /\ getScroller 90 tbody_table = None
  /\ snd (scroll_script "table" (page_with tbody_table)) = NotOk "no-scroller".
Proof. repeat split; by vm_compute. Qed.

(** C9 (amended): the resolver returns the nearest node, walking up from the
    table itself through its ancestors and stopping before the document
    body, whose vertical overflow is auto or scroll and whose scrollHeight
    exceeds clientHeight + 1; if there is none, the first [div] descendant
    of the table, in document order, with the same property; and no scroller
    exactly when neither search finds one. *)
Theorem C9_resolver body table :
  let walk := below_body body (self table :: ancestors table) in
  let divs := List.filter is_div (inner table) in
  (forall e, scrollable e = true <->
     (overflowY e = "auto" \/ overflowY e = "scroll")
     /\ (clientHeight e + 1 < scrollHeight e)%N)
  /\ match getScroller body table with
     | Some e =>
         scrollable e = true
         /\ ((exists pre post,
                walk = pre ++ e :: post
                /\ Forall (fun n => scrollable n = false) pre)
             \/ (Forall (fun n => scrollable n = false) walk
                 /\ exists pre post,
                      divs = pre ++ e :: post
                      /\ Forall (fun n => scrollable n = false) pre))
     | None =>
         Forall (fun n => scrollable n = false) walk
         /\ Forall (fun n => scrollable n = false) divs
     end.
Proof.
  cbn zeta. split.
  { intros e. unfold scrollable.
    rewrite andb_true_iff, orb_true_iff, !String.eqb_eq, N.ltb_lt. done. }
  unfold getScroller.
  pose proof (climb_spec body (self table :: ancestors table)) as Hup.
  destruct (climb body (self table :: ancestors table)) as [e|].
  - destruct Hup as [He Hwalk]. split; [done|by left].
  - pose proof (find_spec (List.filter is_div (inner table))) as Hdown.
    destruct (List.find scrollable (List.filter is_div (inner table))) as [e|].
    + destruct Hdown as [He Hdivs]. split; [done|]. right. by split.
    + by split.
Qed.

(** ** The scroll step *)

Lemma replace_node_id e' e : nodeId (replace_node e' e) = nodeId e.
Proof.
  unfold replace_node. destruct (Nat.eqb (nodeId e) (nodeId e')) eqn:He; [|done].
  by apply Nat.eqb_eq in He.
Qed.

Lemma replace_node_cases e' e :
  (Nat.eqb (nodeId e) (nodeId e') = true /\ replace_node e' e = e')
  \/ (Nat.eqb (nodeId e) (nodeId e') = false /\ replace_node e' e = e).
Proof.
  unfold replace_node. destruct (Nat.eqb (nodeId e) (nodeId e')); tauto.
Qed.

(** Writing to the resolved scroller does not change which node is
    resolved. *)
Lemma climb_after_write body e e' nodes :
  nodeId e' = nodeId e -> scrollable e' = true ->
  climb body nodes = Some e ->
  climb body (List.map (replace_node e') nodes) = Some e'.
Proof.
  intros Hid Hs. induction nodes as [|node up IH]; simpl; [done|].
  rewrite replace_node_id.
  destruct (Nat.eqb (nodeId node) body); [done|].
  destruct (replace_node_cases e' node) as [[Hsame ->]|[Hsame ->]].
  - intros _. by rewrite Hs.
  - destruct (scrollable node); [|done].
    intros [= ->]. rewrite Hid, Nat.eqb_refl in Hsame. done.
Qed.

Lemma climb_none_after_write body e' nodes :
  scrollable e' = true ->
  climb body nodes = None ->
  climb body (List.map (replace_node e') nodes) = None
  \/ climb body (List.map (replace_node e') nodes) = Some e'.
Proof.
  intros Hs. induction nodes as [|node up IH]; simpl; [by left|].
  rewrite replace_node_id.
  destruct (Nat.eqb (nodeId node) body); [by left|].
  destruct (replace_node_cases e' node) as [[_ ->]|[_ ->]].
  - intros _. rewrite Hs. by right.
  - by destruct (scrollable node).
Qed.

Lemma find_after_write e e' (l : list Element) :
  nodeId e' = nodeId e -> scrollable e' = true -> is_div e' = true ->
  List.find scrollable (List.filter is_div l) = Some e ->
  List.find scrollable (List.filter is_div (List.map (replace_node e') l))
  = Some e'.
Proof.
  intros Hid Hs Hdiv. induction l as [|d l IH]; simpl; [done|].
  destruct (replace_node_cases e' d) as [[Hsame ->]|[Hsame ->]].
  - intros _. rewrite Hdiv. simpl. by rewrite Hs.
  - destruct (is_div d); [|done]. simpl.
    destruct (scrollable d); [|done].
    intros [= ->]. rewrite Hid, Nat.eqb_refl in Hsame. done.
Qed.

Lemma getScroller_after_write body table e v :
  getScroller body table = Some e ->
  getScroller body (write_node (set_scrollTop v e) table)
  = Some (set_scrollTop v e).
Proof.
  unfold getScroller. intros Hget.
  assert (Hchain : self (write_node (set_scrollTop v e) table)
                   :: ancestors (write_node (set_scrollTop v e) table)
                   = List.map (replace_node (set_scrollTop v e))
                              (self table :: ancestors table)) by done.
  assert (Hinner : inner (write_node (set_scrollTop v e) table)
                   = List.map (replace_node (set_scrollTop v e)) (inner table))
    by done.
  rewrite Hchain, Hinner. clear Hchain Hinner.
  pose proof (climb_spec body (self table :: ancestors table)) as Hup.
  destruct (climb body (self table :: ancestors table)) as [n|] eqn:Hclimb.
  - injection Hget as ->. destruct Hup as [Hs _].
    by rewrite (climb_after_write body e (set_scrollTop v e)).
  - pose proof (find_spec (List.filter is_div (inner table))) as Hdown.
    rewrite Hget in Hdown. destruct Hdown as [Hs _].
    assert (Hdiv : is_div e = true).
    { apply find_some in Hget as [Hin _].
      apply filter_In in Hin. tauto. }
    destruct (climb_none_after_write body (set_scrollTop v e)
                (self table :: ancestors table) Hs Hclimb) as [-> | ->]; [|done].
    by apply find_after_write with e.
Qed.

(** C5: when a scroller is resolved whose position [prev] lies between 0
    and its maximum, the scroll step moves it to
    [min (prev + clientHeight) max], which the page then holds for the same
    scroller, and reports previous, now and max; so [0 <= now <= max] and
    [prev <= now], and the loop takes the bottom as reached exactly when
    [now >= max]. *)
Theorem C5_scroll_advance table_sel p table scroller :
  querySelector p table_sel = Some table ->
  getScroller (bodyId p) table = Some scroller ->
  0 <= scrollTop scroller <= max_scroll scroller ->
  let prev := scrollTop scroller in
  let max := max_scroll scroller in
  let now := Z.min (prev + Z.of_N (clientHeight scroller)) max in
  let p' := fst (scroll_script table_sel p) in
  snd (scroll_script table_sel p) = Ok prev now max
  /\ (exists table' scroller',
        querySelector p' table_sel = Some table'
        /\ getScroller (bodyId p') table' = Some scroller'
        /\ nodeId scroller' = nodeId scroller
        /\ scrollTop scroller' = now)
  /\ 0 <= now <= max
  /\ prev <= now
  /\ (at_bottom (snd (scroll_script table_sel p)) = true <-> now >= max).
Proof.
  intros Htable Hscroller Hrange. cbn zeta.
  unfold scroll_script. rewrite Htable, Hscroller. cbn [fst snd].
  set (prev := scrollTop scroller) in *.
  set (max := max_scroll scroller) in *.
  set (now := Z.min (prev + Z.of_N (clientHeight scroller)) max).
  assert (Hnow : 0 <= now <= max /\ prev <= now) by (unfold now; lia).
  assert (Hset : scrollTop (set_scrollTop now scroller) = now).
  { unfold set_scrollTop; simpl. fold max. lia. }
  rewrite Hset. split; [done|]. split.
  - exists (write_node (set_scrollTop now scroller) table),
           (set_scrollTop now scroller).
    cbn [write_page querySelector bodyId]. rewrite Htable.
    split; [done|]. split; [by apply getScroller_after_write|done].
  - split; [tauto|]. split; [tauto|]. simpl. unfold Z.geb.
    destruct (now ?= max) eqn:Hcmp;
      [apply Z.compare_eq_iff in Hcmp | apply Z.compare_lt_iff in Hcmp
       | apply Z.compare_gt_iff in Hcmp]; split; intros; try done; lia.
Qed.

Lemma C5_scroll_advance_witness :
  snd (scroll_script "table" tall_page) = Ok 0 100 800
  /\ (exists table' scroller',
        querySelector (fst (scroll_script "table" tall_page)) "table"
        = Some table'
        /\ getScroller (bodyId (fst (scroll_script "table" tall_page))) table'
           = Some scroller'
        /\ nodeId scroller' = nodeId tall_scroller
        /\ scrollTop scroller' = 100)
  /\ 0 <= 100 <= 800
  /\ 0 <= 100
  /\ (at_bottom (snd (scroll_script "table" tall_page)) = true <-> 100 >= 800).
Proof.
  apply (C5_scroll_advance "table" tall_page tall_table tall_scroller).
  - reflexivity.
  - reflexivity.
  - vm_compute. split; discriminate.
Defined.

(** * Further properties of the harvester *)

(** ** The ledger kept by [extract_new_products] *)

(** X1: the records one call returns have pairwise distinct, non-empty ids
    that were not in [seen_ids] before, they are exactly the first cells of
    the rendered rows with these properties, the set handed back is the old
    one with these ids added, and the page is left as it was. *)
Theorem extract_new_products_ledger p table_sel seen :
  let r := extract_new_products p table_sel seen in
  let new_ids := item_id <$> snd (fst r) in
  NoDup new_ids
  /\ (forall k, k ∈ new_ids <->
        k ∈ row_keys (snd (rows_script table_sel p)) /\ k <> "" /\ k ∉ seen)
  /\ snd r = list_to_set new_ids ∪ seen
  /\ fst (fst r) = p.
Proof.
  cbn zeta. unfold extract_new_products.
  pose proof (rows_script_page table_sel p) as Hp.
  destruct (rows_script table_sel p) as [p1 rows]. simpl in Hp. subst p1.
  destruct (collect_rows_ids rows seen) as [Hids Hseen].
  destruct (collect_rows rows seen []) as [new seen']. simpl in *.
  rewrite Hids, Hseen.
  split; [apply accept_keys_NoDup|]. split; [apply accept_keys_elem|done].
Qed.

Section Ledger.
Variables (env : Env) (p : Page) (table_sel : string) (target_count : Z).

(** X2: when a round is over, [seen_ids] holds exactly the ids of the
    records in [products]. *)
Theorem seen_ids_are_the_collected_ids n :
  seen_ids (after_rounds env p table_sel target_count n)
  = list_to_set
      (item_id <$> products (after_rounds env p table_sel target_count n)).
Proof.
  destruct (harvested_after env p table_sel target_count n) as [-> ->].
  destruct (collect_rows_ids (offered env p table_sel target_count n) ∅)
    as [-> ->].
  by rewrite (right_id_L ∅ (∪)).
Qed.

Lemma products_prefix n k :
  products (after_rounds env p table_sel target_count n)
  `prefix_of` products (after_rounds env p table_sel target_count (n + k)).
Proof.
  induction k as [|k IH].
  - by replace (n + 0)%nat with n by lia.
  - replace (n + S k)%nat with (S (n + k)) by lia.
    rewrite products_after_S. by apply prefix_app_r.
Qed.

(** X3: records are only ever appended: what has been collected after [n]
    rounds is still there, in the same order, after any later round, and
    in what the run returns. *)
Theorem products_only_grow :
  (forall n k,
     products (after_rounds env p table_sel target_count n)
     `prefix_of` products (after_rounds env p table_sel target_count (n + k)))
  /\ exists h,
       scroll_and_collect_all env p table_sel target_count = Some h
       /\ forall n,
            (rounds h < n)%nat
            \/ products (after_rounds env p table_sel target_count n)
               `prefix_of` returned h.
Proof.
  split; [apply products_prefix|].
  destruct (run_spec env p table_sel target_count) as (h & Hrun & _ & Hret & _).
  exists h. split; [done|]. intros n.
  destruct (decide (rounds h < n)%nat) as [|Hle]; [by left|right].
  rewrite Hret. replace (rounds h) with (n + (rounds h - n))%nat by lia.
  apply products_prefix.
Qed.

Lemma collected_monotone n m :
  (n <= m)%nat ->
  (collected_by env p table_sel target_count n
   <= collected_by env p table_sel target_count m)%nat.
Proof.
  intros Hle. unfold collected_by.
  replace m with (n + (m - n))%nat by lia.
  apply prefix_length, products_prefix.
Qed.

(** The counter looks back over a window of rounds that added nothing. *)
Lemma no_progress_window n :
  let k := no_progress_rounds (after_rounds env p table_sel target_count n) in
  (k <= n)%nat
  /\ collected_by env p table_sel target_count (n - k)
     = collected_by env p table_sel target_count n.
Proof.
  cbn zeta. induction n as [|n [IHle IHeq]].
  - split; [unfold after_rounds, enter; simpl; lia|done].
  - rewrite no_progress_after.
    pose proof (collected_grows env p table_sel target_count n) as Hgrow.
    destruct (Nat.ltb _ _) eqn:Hlt.
    + split; [lia|]. by replace (S n - 0)%nat with (S n) by lia.
    + apply Nat.ltb_ge in Hlt. split; [lia|].
      replace (S n - S (no_progress_rounds
                          (after_rounds env p table_sel target_count n)))%nat
        with (n - no_progress_rounds
                    (after_rounds env p table_sel target_count n))%nat by lia.
      rewrite IHeq. lia.
Qed.

(** X4: a run that stops by exhaustion has run at least five rounds, the
    last five of them added no record, and in its last round the scroll step
    reported the bottom without any movement. *)
Theorem exhaustion_needs_five_idle_rounds h :
  scroll_and_collect_all env p table_sel target_count = Some h ->
  reason h = Exhausted ->
  (5 <= rounds h)%nat
  /\ returned h
     = products (after_rounds env p table_sel target_count (rounds h - 5))
  /\ did_not_move (scrolled_in env p table_sel target_count (rounds h)) = true
  /\ at_bottom (scrolled_in env p table_sel target_count (rounds h)) = true.
Proof.
  intros Hrun Hwhy.
  destruct (run_spec env p table_sel target_count)
    as (h' & Hrun' & _ & Hret & _ & Hcase).
  rewrite Hrun in Hrun'. injection Hrun' as <-.
  destruct Hcase as [(_ & Hge & Hb & _)|(Hc & _)]; [|congruence].
  rewrite breaks_after in Hb.
  replace (S (rounds h - 1)) with (rounds h) in Hb by lia.
  apply andb_prop in Hb as [Hmove Hb]. apply andb_prop in Hb as [Hbot Hfive].
  apply Nat.leb_le in Hfive.
  destruct (no_progress_window (rounds h)) as [Hle Heq].
  split; [lia|]. split; [|done].
  rewrite Hret. symmetry. apply prefix_length_eq.
  - replace (rounds h) with ((rounds h - 5) + 5)%nat at 2 by lia.
    apply products_prefix.
  - fold (collected_by env p table_sel target_count (rounds h)).
    fold (collected_by env p table_sel target_count (rounds h - 5)).
    rewrite <- Heq. apply collected_monotone. lia.
Qed.

(** X5: a round whose scroll step did not succeed never ends the loop; a
    run in which it never succeeds takes all 20000 rounds. *)
Theorem failed_scroll_never_stops :
  (forall n reason,
     scrolled_in env p table_sel target_count (S n) = NotOk reason ->
     breaks table_sel target_count
            (after_rounds env p table_sel target_count n) = false)
  /\ ((forall i, 1 <= Z.of_nat i <= 20000 ->
         exists reason,
           scrolled_in env p table_sel target_count i = NotOk reason) ->
      exists h,
        scroll_and_collect_all env p table_sel target_count = Some h
        /\ Z.of_nat (rounds h) = 20000
        /\ reason h = SafetyCeilingReached).
Proof.
  split.
  - intros n r Hsc. rewrite breaks_after, Hsc. done.
  - intros Hfail. pose proof safety_ceiling_value as Hc.
    destruct (unbroken_run env p table_sel target_count)
      as (h & Hrun & Hn & Hwhy & _).
    { intros i Hi. destruct (Hfail i) as [r ->]; [lia|done]. }
    exists h. split; [done|]. split; [lia|done].
Qed.

(** X6: the named fields of every returned record agree with its raw
    cells: the id is the first cell and is not empty, and the field for
    column k is the cell at position k, or empty when the row is shorter. *)
Theorem returned_records_agree_with_cells :
  exists h,
    scroll_and_collect_all env p table_sel target_count = Some h
    /\ forall it, it ∈ returned h ->
         item_id it <> ""
         /\ head (cells it) = Some (item_id it)
         /\ forall k, (1 <= k <= 6)%nat ->
              projection k it = default "" (cells it !! k).
Proof.
  destruct (run_spec env p table_sel target_count) as (h & Hrun & _ & Hret & _).
  exists h. split; [done|]. intros it Hin.
  destruct (harvested_after env p table_sel target_count (rounds h)) as [Hp _].
  rewrite Hret, Hp in Hin.
  assert (Hid : item_id it ∈ item_id <$>
            fst (collect_rows (offered env p table_sel target_count (rounds h))
                              ∅ []))
    by (by apply list_elem_of_fmap_2).
  destruct (collect_rows_ids (offered env p table_sel target_count (rounds h)) ∅)
    as [Hids _].
  rewrite Hids in Hid. apply accept_keys_elem in Hid as (_ & Hne & _).
  apply collect_rows_items in Hin as (_ & Hhead & Hmk).
  split; [done|]. split; [done|].
  intros k Hk. rewrite Hmk. unfold make_item; simpl.
  assert (Hcell : forall j, cell_or_empty j (cells it)
                            = default "" (cells it !! j)).
  { intros j. unfold cell_or_empty.
    destruct (Nat.ltb j (length (cells it))) eqn:Hlt; [done|].
    apply Nat.ltb_ge in Hlt. by rewrite lookup_ge_None_2. }
  do 7 (destruct k as [|k]; [first [lia | apply Hcell]|]). lia.
Qed.

End Ledger.

(** ** The scripts *)

Section StripFacts.
Variable two : ascii -> ascii -> bool.
Variable three : ascii -> ascii -> ascii -> bool.

(** What is left after dropping starts with no stripped character, and is
    the end of what was there. *)
Lemma drop_spaces_spec l :
  space_ahead two three (drop_spaces two three l) = false
  /\ exists pre, l = pre ++ drop_spaces two three l.
Proof.
  remember (length l) as n eqn:Hn. revert l Hn.
  induction (lt_wf n) as [n _ IH]. intros l ->.
  destruct l as [|a l1]; [split; [done|by exists []]|].
  cbn [drop_spaces].
  destruct (one_byte_space a) eqn:H1.
  { destruct (IH (length l1) ltac:(simpl; lia) l1 eq_refl) as [Hs [pre Hpre]].
    split; [done|]. exists (a :: pre). simpl. by rewrite <- Hpre. }
  destruct l1 as [|b l2];
    [split; [simpl; by rewrite H1|by exists []]|].
  destruct (two a b) eqn:H2.
  { destruct (IH (length l2) ltac:(simpl; lia) l2 eq_refl) as [Hs [pre Hpre]].
    split; [done|]. exists (a :: b :: pre). simpl. by rewrite <- Hpre. }
  destruct l2 as [|c l3];
    [split; [simpl; by rewrite H1, H2|by exists []]|].
  destruct (three a b c) eqn:H3.
  { destruct (IH (length l3) ltac:(simpl; lia) l3 eq_refl) as [Hs [pre Hpre]].
    split; [done|]. exists (a :: b :: c :: pre). simpl. by rewrite <- Hpre. }
  split; [simpl; by rewrite H1, H2, H3|by exists []].
Qed.

Lemma drop_spaces_id l :
  space_ahead two three l = false -> drop_spaces two three l = l.
Proof.
  destruct l as [|a [|b [|c l3]]]; simpl; try done.
  - by intros [-> _]%orb_false_elim.
  - by intros [-> [-> _]%orb_false_elim]%orb_false_elim.
  - by intros [-> [-> ->]%orb_false_elim]%orb_false_elim.
Qed.

(** A text that starts with a stripped character still does when it is
    continued. *)
Lemma space_ahead_app l k :
  space_ahead two three (l ++ k) = false -> space_ahead two three l = false.
Proof.
  destruct l as [|a [|b [|c l3]]]; simpl; try done.
  - intros [-> _]%orb_false_elim. done.
  - intros [-> [-> _]%orb_false_elim]%orb_false_elim. done.
Qed.

End StripFacts.

(** What [trim] returns neither starts nor ends with a stripped character. *)
Lemma trim_edges s : edge_space (trim s) = false.
Proof.
  unfold edge_space, trim, drop_trailing, drop_leading.
  rewrite list_ascii_of_string_of_list_ascii.
  set (a := drop_spaces two_byte_space three_byte_space
                         (list_ascii_of_string s)).
  destruct (drop_spaces_spec two_bytes_back three_bytes_back (rev a))
    as [Hback [pre Hpre]].
  rewrite rev_involutive, Hback, orb_false_r.
  assert (Ha : a = rev (drop_spaces two_bytes_back three_bytes_back (rev a))
                   ++ rev pre).
  { rewrite <- rev_app_distr, <- Hpre. by rewrite rev_involutive. }
  destruct (drop_spaces_spec two_byte_space three_byte_space
              (list_ascii_of_string s)) as [Hfront _].
  fold a in Hfront. rewrite Ha in Hfront.
  by apply space_ahead_app in Hfront.
Qed.

Lemma trim_fixed s : edge_space s = false -> trim s = s.
Proof.
  unfold edge_space, trim, drop_trailing, drop_leading.
  intros [H1 H2]%orb_false_elim.
  rewrite (drop_spaces_id _ _ _ H1), (drop_spaces_id _ _ _ H2), rev_involutive.
  apply string_of_list_ascii_of_string.
Qed.

(** Stripped at both ends: an em space (U+2003), a byte order mark (U+FEFF),
    an ideographic space (U+3000), a no-break space, line ends.  Kept: white
    space inside the text, and at the ends a zero width space (U+200B) and a
    next line (U+0085), which are not white space for ECMAScript. *)
Example trim_samples :
  trim padded_id = "A"
  /\ trim (bytes [32; 10; 13; 9]%nat) = ""
  /\ trim "" = ""
  /\ trim " oak  chair " = "oak  chair"
  /\ trim (bytes [226; 128; 139; 65; 194; 133]%nat)
     = bytes [226; 128; 139; 65; 194; 133]%nat
  /\ trim (bytes [225; 154; 128; 226; 128; 138; 65; 226; 129; 159;
                  226; 128; 175; 226; 128; 169]%nat) = "A".
Proof. repeat split; by vm_compute. Qed.

Lemma rows_script_trimmed table_sel p row cell :
  row ∈ snd (rows_script table_sel p) ->
  cell ∈ row ->
  edge_space cell = false /\ trim cell = cell.
Proof.
  unfold rows_script. destruct (querySelector p table_sel) as [t|]; simpl.
  - intros Hrow Hcell.
    apply list_elem_of_In, in_map_iff in Hrow as (tr & <- & _).
    apply list_elem_of_In, in_map_iff in Hcell as (raw & <- & _).
    split; [apply trim_edges|apply trim_fixed, trim_edges].
  - intros Hrow. by apply elem_of_nil in Hrow.
Qed.

(** X7: every cell the extraction script returns is trimmed: it neither
    starts nor ends with a character that [String.prototype.trim] strips
    (the white space and line terminators of ECMAScript, of one, two or
    three bytes), and trimming it again changes nothing.  So the records
    [extract_new_products] builds have ids that are not empty and carry no
    white space at either end, and so have all their cells. *)
Theorem extracted_cells_are_trimmed table_sel p seen :
  (forall row cell,
     row ∈ snd (rows_script table_sel p) ->
     cell ∈ row ->
     edge_space cell = false /\ trim cell = cell)
  /\ (forall it,
        it ∈ snd (fst (extract_new_products p table_sel seen)) ->
        item_id it <> ""
        /\ edge_space (item_id it) = false
        /\ forall cell,
             cell ∈ cells it -> edge_space cell = false /\ trim cell = cell).
Proof.
  split; [apply rows_script_trimmed|].
  unfold extract_new_products.
  pose proof (rows_script_trimmed table_sel p) as Htrim.
  destruct (rows_script table_sel p) as [p1 rows]. cbn [snd] in Htrim.
  destruct (collect_rows rows seen []) as [new seen'] eqn:Hc. cbn [fst snd].
  intros it Hin.
  assert (Hnew : new = fst (collect_rows rows seen [])) by by rewrite Hc.
  rewrite Hnew in Hin.
  destruct (collect_rows_items rows seen it Hin) as (Hrow & Hhead & _).
  assert (Hid : item_id it ∈ cells it).
  { destruct (cells it) as [|c cs]; [done|].
    injection Hhead as ->. apply list_elem_of_here. }
  split; [|split].
  - assert (Hacc : item_id it ∈ accept_keys seen (row_keys rows)).
    { destruct (collect_rows_ids rows seen) as [<- _].
      by apply list_elem_of_fmap_2. }
    apply accept_keys_elem in Hacc. tauto.
  - by apply (Htrim (cells it) (item_id it)).
  - intros cell Hcell. by apply (Htrim (cells it)).
Qed.

Lemma extracted_cells_are_trimmed_witness :
  snd (rows_script "table" padded_page) = [["A"; "chair"]]
  /\ edge_space "A" = false /\ trim "A" = "A".
Proof.
  split; [vm_compute; reflexivity|].
  apply (proj1 (extracted_cells_are_trimmed "table" padded_page ∅)
               ["A"; "chair"] "A").
  - vm_compute. apply list_elem_of_here.
  - apply list_elem_of_here.
Defined.

Lemma getScroller_scrollable body t e :
  getScroller body t = Some e -> scrollable e = true.
Proof.
  unfold getScroller.
  pose proof (climb_spec body (self t :: ancestors t)) as Hup.
  destruct (climb body (self t :: ancestors t)) as [n|].
  - intros [= <-]. tauto.
  - intros Hfind. pose proof (find_spec (List.filter is_div (inner t))) as Hd.
    rewrite Hfind in Hd. tauto.
Qed.

Lemma scrollable_range e : scrollable e = true -> 2 <= max_scroll e.
Proof.
  unfold scrollable, max_scroll. intros [_ Hlt%N.ltb_lt]%andb_prop. lia.
Qed.

Lemma reset_script_top table_sel p t e :
  querySelector p table_sel = Some t ->
  getScroller (bodyId p) t = Some e ->
  exists t' e',
    querySelector (reset_script table_sel p) table_sel = Some t'
    /\ getScroller (bodyId (reset_script table_sel p)) t' = Some e'
    /\ nodeId e' = nodeId e
    /\ scrollTop e' = 0
    /\ scrollHeight e' = scrollHeight e
    /\ clientHeight e' = clientHeight e
    /\ bodyRows t' = bodyRows t.
Proof.
  intros Ht He. unfold reset_script. rewrite Ht, He.
  exists (write_node (set_scrollTop 0 e) t), (set_scrollTop 0 e).
  cbn [write_page querySelector bodyId]. rewrite Ht.
  split; [done|]. split; [by apply getScroller_after_write|].
  split; [done|]. split; [|done]. simpl.
  pose proof (scrollable_range e (getScroller_scrollable _ _ _ He)). lia.
Qed.

(** X8: when the table has a scroller, the reset script leaves that same
    scroller at position 0 and the rendered rows as they were. *)
Theorem reset_script_goes_to_top table_sel p t e :
  querySelector p table_sel = Some t ->
  getScroller (bodyId p) t = Some e ->
  exists t' e',
    querySelector (reset_script table_sel p) table_sel = Some t'
    /\ getScroller (bodyId (reset_script table_sel p)) t' = Some e'
    /\ nodeId e' = nodeId e
    /\ scrollTop e' = 0
    /\ scrollHeight e' = scrollHeight e
    /\ clientHeight e' = clientHeight e
    /\ bodyRows t' = bodyRows t.
Proof. apply reset_script_top. Qed.

Lemma reset_script_goes_to_top_witness :
  exists t' e',
    querySelector (reset_script "table" tall_page) "table" = Some t'
    /\ getScroller (bodyId (reset_script "table" tall_page)) t' = Some e'
    /\ nodeId e' = nodeId tall_scroller
    /\ scrollTop e' = 0
    /\ scrollHeight e' = scrollHeight tall_scroller
    /\ clientHeight e' = clientHeight tall_scroller
    /\ bodyRows t' = bodyRows tall_table.
Proof.
  apply (reset_script_goes_to_top "table" tall_page tall_table tall_scroller);
    reflexivity.
Defined.

(** X10: whatever position the scroller was found in, a successful scroll
    step reports a maximum of at least 2 and a new position between 0 and
    that maximum; the new position is not below the previous one unless
    the previous one was beyond the maximum, in which case it is the
    maximum. *)
Theorem scroll_report_bounds table_sel p prev now max :
  snd (scroll_script table_sel p) = Ok prev now max ->
  2 <= max
  /\ 0 <= now <= max
  /\ (prev <= max -> prev <= now)
  /\ (max <= prev -> now = max).
Proof.
  unfold scroll_script. destruct (querySelector p table_sel) as [t|]; [|done].
  destruct (getScroller (bodyId p) t) as [e|] eqn:He; [|done].
  simpl. intros [= <- <- <-].
  pose proof (scrollable_range e (getScroller_scrollable _ _ _ He)). lia.
Qed.

Lemma scroll_report_bounds_witness :
  2 <= 800 /\ 0 <= 100 <= 800 /\ (0 <= 800 -> 0 <= 100) /\ (800 <= 0 -> 100 = 800).
Proof.
  apply (scroll_report_bounds "table" tall_page 0 100 800). reflexivity.
Defined.

Lemma exhaustion_needs_five_idle_rounds_witness :
  exists h,
    scroll_and_collect_all still short_page "table" 2849 = Some h
    /\ (5 <= rounds h)%nat
    /\ returned h
       = products (after_rounds still short_page "table" 2849 (rounds h - 5))
    /\ did_not_move (scrolled_in still short_page "table" 2849 (rounds h)) = true
    /\ at_bottom (scrolled_in still short_page "table" 2849 (rounds h)) = true.
Proof.
  assert (Hwhy : reason <$> scroll_and_collect_all still short_page "table" 2849
                 = Some Exhausted) by (vm_compute; reflexivity).
  destruct (scroll_and_collect_all still short_page "table" 2849) as [h|] eqn:Hrun;
    [|discriminate].
  exists h. split; [reflexivity|].
  apply (exhaustion_needs_five_idle_rounds still short_page "table" 2849 h Hrun).
  simpl in Hwhy. congruence.
Defined.

Lemma failed_scroll_never_stops_witness :
  (forall i, 1 <= Z.of_nat i <= 20000 ->
     exists reason, scrolled_in still bare_page "table" 2849 i = NotOk reason)
  /\ exists h,
       scroll_and_collect_all still bare_page "table" 2849 = Some h
       /\ Z.of_nat (rounds h) = 20000
       /\ reason h = SafetyCeilingReached.
Proof.
  assert (H : forall i, 1 <= Z.of_nat i <= 20000 ->
            exists reason,
              scrolled_in still bare_page "table" 2849 i = NotOk reason).
  { intros i _. exists "no-scroller". unfold scrolled_in.
    rewrite (page_stays still bare_page "table" 2849 "no-scroller");
      reflexivity. }
  split; [exact H|].
  exact (proj2 (failed_scroll_never_stops still bare_page "table" 2849) H).
Defined.

(** ** Pages that do not re-render *)

Section Static.
Variables (env : Env) (p : Page) (table_sel : string) (target_count : Z).
Variables (t : Table) (e : Element).
Hypothesis Hstill : forall n q, settle env n q = q.
Hypothesis Htable : querySelector (focus env table_sel p) table_sel = Some t.
Hypothesis Hscroller :
  getScroller (bodyId (focus env table_sel p)) t = Some e.

Lemma standing_step n q :
  standing_at table_sel t e n q ->
  standing_at table_sel t e (S n) (fst (scroll_script table_sel q))
  /\ snd (scroll_script table_sel q)
     = Ok (position_after (Z.of_N (clientHeight e)) (max_scroll e) n)
          (position_after (Z.of_N (clientHeight e)) (max_scroll e) (S n))
          (max_scroll e)
  /\ snd (rows_script table_sel q)
     = snd (rows_script table_sel (focus env table_sel p)).
Proof.
  intros (t' & e' & Ht' & He' & Htop & Hsh & Hch & Hrows).
  pose proof (scrollable_range e (getScroller_scrollable _ _ _ Hscroller)) as Hmx.
  assert (Hmax : max_scroll e' = max_scroll e)
    by (unfold max_scroll; by rewrite Hsh, Hch).
  assert (Hnext : Z.max 0 (Z.min (Z.min (scrollTop e' + Z.of_N (clientHeight e'))
                                        (max_scroll e')) (max_scroll e'))
                  = position_after (Z.of_N (clientHeight e)) (max_scroll e) (S n)).
  { rewrite Htop, Hch, Hmax. unfold position_after.
    rewrite Nat2Z.inj_succ, Z.mul_succ_l. lia. }
  unfold scroll_script, rows_script. rewrite Ht', He', Htable. cbn [fst snd].
  split; [|split].
  - exists (write_node (set_scrollTop
                          (Z.min (scrollTop e' + Z.of_N (clientHeight e'))
                                 (max_scroll e')) e') t'),
           (set_scrollTop (Z.min (scrollTop e' + Z.of_N (clientHeight e'))
                                 (max_scroll e')) e').
    cbn [write_page querySelector bodyId]. rewrite Ht'.
    split; [done|]. split; [by apply getScroller_after_write|].
    split; [exact Hnext|done].
  - simpl. by rewrite Hnext, Htop, Hmax.
  - by rewrite Hrows.
Qed.

Lemma standing_after n :
  standing_at table_sel t e n
              (page (after_rounds env p table_sel target_count n)).
Proof.
  induction n as [|n IH].
  - unfold after_rounds, enter; simpl.
    destruct (reset_script_top table_sel (focus env table_sel p) t e
                Htable Hscroller)
      as (t' & e' & ? & ? & ? & Htop & ? & ? & ?).
    exists t', e'. repeat split; try done.
    rewrite Htop. unfold position_after.
    pose proof (scrollable_range e (getScroller_scrollable _ _ _ Hscroller)).
    lia.
  - rewrite after_rounds_S. unfold advance, wait; simpl. rewrite Hstill.
    destruct (round_fields table_sel target_count
                (after_rounds env p table_sel target_count n))
      as (_ & _ & _ & -> & _).
    by apply standing_step.
Qed.

Lemma static_scrolled n :
  scrolled_in env p table_sel target_count (S n)
  = Ok (position_after (Z.of_N (clientHeight e)) (max_scroll e) n)
       (position_after (Z.of_N (clientHeight e)) (max_scroll e) (S n))
       (max_scroll e).
Proof.
  unfold scrolled_in. replace (S n - 1)%nat with n by lia.
  apply (standing_step n), standing_after.
Qed.

Lemma static_rows n :
  rows_in env p table_sel target_count (S n)
  = snd (rows_script table_sel (focus env table_sel p)).
Proof.
  unfold rows_in. replace (S n - 1)%nat with n by lia.
  apply (standing_step n), standing_after.
Qed.

(** Everything there is to collect is collected in the first round. *)
Lemma static_products n :
  products (after_rounds env p table_sel target_count (S n))
  = fst (collect_rows (snd (rows_script table_sel (focus env table_sel p))) ∅ [])
  /\ seen_ids (after_rounds env p table_sel target_count (S n))
     = snd (collect_rows (snd (rows_script table_sel (focus env table_sel p)))
                         ∅ []).
Proof.
  induction n as [|n [IHp IHs]].
  - by rewrite products_after_S, seen_after_S, static_rows.
  - rewrite (products_after_S _ _ _ _ (S n)), (seen_after_S _ _ _ _ (S n)).
    rewrite static_rows, IHp, IHs, collect_rows_again. simpl.
    by rewrite app_nil_r.
Qed.

End Static.

(** X11: on a page that does not re-render and whose table has a scroller
    with a viewport of positive height, the run ends by exhaustion within
    max(6, max/clientHeight + 2) rounds (when that is within the ceiling)
    and returns what one extraction of the rendered rows gives. *)
Theorem static_page_is_harvested env p table_sel target_count t e :
  (forall n q, settle env n q = q) ->
  querySelector (focus env table_sel p) table_sel = Some t ->
  getScroller (bodyId (focus env table_sel p)) t = Some e ->
  (1 <= clientHeight e)%N ->
  Z.max 6 (max_scroll e / Z.of_N (clientHeight e) + 2) <= 20000 ->
  exists h,
    scroll_and_collect_all env p table_sel target_count = Some h
    /\ reason h = Exhausted
    /\ Z.of_nat (rounds h)
       <= Z.max 6 (max_scroll e / Z.of_N (clientHeight e) + 2)
    /\ returned h
       = fst (collect_rows
                (snd (rows_script table_sel (focus env table_sel p))) ∅ []).
Proof.
  intros Hstill Htable Hscroller Hch Hbound.
  pose proof (scrollable_range e (getScroller_scrollable _ _ _ Hscroller)) as Hmx.
  set (ch := Z.of_N (clientHeight e)) in *.
  set (mx := max_scroll e) in *.
  assert (Hch1 : 1 <= ch) by (unfold ch; lia).
  assert (Hdiv : mx < ch * Z.succ (mx / ch)) by (apply Z.mul_succ_div_gt; lia).
  assert (Hq : 0 <= mx / ch) by (apply Z.div_pos; lia).
  set (K := Z.to_nat (Z.max 6 (mx / ch + 2))).
  assert (HK : Z.of_nat K = Z.max 6 (mx / ch + 2)) by (unfold K; lia).
  assert (Hpos : forall n, (K - 1 <= n)%nat -> position_after ch mx n = mx).
  { intros n Hn. unfold position_after. apply Z.min_r.
    assert (mx / ch + 1 <= Z.of_nat n) by lia. nia. }
  assert (Hb : breaks table_sel target_count
                 (after_rounds env p table_sel target_count (K - 1)) = true).
  { rewrite breaks_after.
    rewrite (static_scrolled env p table_sel target_count t e
               Hstill Htable Hscroller (K - 1)).
    fold ch mx. rewrite !Hpos by lia.
    assert (Hfive : Nat.leb 5 (no_progress_rounds
                      (after_rounds env p table_sel target_count (S (K - 1))))
                    = true).
    { apply Nat.leb_le.
      replace (S (K - 1)) with (1 + (K - 1))%nat by lia.
      etransitivity; [|apply stalled_rounds_counted].
      - lia.
      - intros i Hi. unfold collected_by.
        destruct i as [|i]; [lia|].
        by rewrite !(proj1 (static_products env p table_sel target_count t e
                              Hstill Htable Hscroller _)). }
    rewrite Hfive. unfold did_not_move, at_bottom.
    by rewrite Z.eqb_refl, Z.geb_leb, Z.leb_refl. }
  pose proof safety_ceiling_value as Hc.
  destruct (run_spec env p table_sel target_count)
    as (h & Hrun & Hle & Hret & Hnb & Hcase).
  assert (Hrounds : (rounds h <= K)%nat).
  { destruct (decide (rounds h <= K)%nat) as [|Hgt]; [done|].
    rewrite (Hnb (K - 1)%nat) in Hb by lia. done. }
  exists h. split; [done|].
  destruct Hcase as [(Hwhy & Hge & _)|(_ & Hn & Hall & _)].
  - split; [done|]. split; [lia|]. rewrite Hret.
    destruct (rounds h) as [|j]; [lia|].
    apply (static_products env p table_sel target_count t e
             Hstill Htable Hscroller j).
  - rewrite (Hall (K - 1)%nat) in Hb by lia. done.
Qed.

Lemma static_page_is_harvested_witness :
  exists h,
    scroll_and_collect_all still short_page "table" 2849 = Some h
    /\ reason h = Exhausted
    /\ Z.of_nat (rounds h)
       <= Z.max 6 (max_scroll short_scroller
                   / Z.of_N (clientHeight short_scroller) + 2)
    /\ returned h
       = fst (collect_rows
                (snd (rows_script "table" (focus still "table" short_page)))
                ∅ []).
Proof.
  apply (static_page_is_harvested still short_page "table" 2849
           short_table short_scroller).
  - reflexivity.
  - reflexivity.
  - reflexivity.
  - vm_compute. discriminate.
  - vm_compute. discriminate.
Defined.

(** X12: on such a page, a scroller whose viewport has no height is never
    moved and never found at the bottom: the run takes all 20000 rounds,
    and still returns what one extraction gives. *)
Theorem zero_viewport_never_exhausts env p table_sel target_count t e :
  (forall n q, settle env n q = q) ->
  querySelector (focus env table_sel p) table_sel = Some t ->
  getScroller (bodyId (focus env table_sel p)) t = Some e ->
  clientHeight e = 0%N ->
  exists h,
    scroll_and_collect_all env p table_sel target_count = Some h
    /\ Z.of_nat (rounds h) = 20000
    /\ reason h = SafetyCeilingReached
    /\ returned h
       = fst (collect_rows
                (snd (rows_script table_sel (focus env table_sel p))) ∅ []).
Proof.
  intros Hstill Htable Hscroller Hch.
  pose proof (scrollable_range e (getScroller_scrollable _ _ _ Hscroller)) as Hmx.
  pose proof safety_ceiling_value as Hc.
  destruct (unbroken_run env p table_sel target_count)
    as (h & Hrun & Hn & Hwhy & _).
  { intros i Hi. destruct i as [|n]; [lia|].
    rewrite (static_scrolled env p table_sel target_count t e
               Hstill Htable Hscroller n).
    unfold position_after. rewrite Hch. simpl.
    rewrite !Z.mul_0_r, Z.min_l by lia.
    apply andb_false_intro2. rewrite Z.geb_leb. apply Z.leb_gt. lia. }
  exists h. split; [done|]. split; [lia|]. split; [done|].
  destruct (run_spec env p table_sel target_count)
    as (h' & Hrun' & _ & Hret & _).
  rewrite Hrun in Hrun'. injection Hrun' as <-. rewrite Hret.
  destruct (rounds h) as [|j]; [lia|].
  apply (static_products env p table_sel target_count t e
           Hstill Htable Hscroller j).
Qed.

Lemma zero_viewport_never_exhausts_witness :
  exists h,
    scroll_and_collect_all still flat_page "table" 2849 = Some h
    /\ Z.of_nat (rounds h) = 20000
    /\ reason h = SafetyCeilingReached
    /\ returned h
       = fst (collect_rows
                (snd (rows_script "table" (focus still "table" flat_page)))
                ∅ []).
Proof.
  apply (zero_viewport_never_exhausts still flat_page "table" 2849
           flat_table flat_scroller); reflexivity.
Defined.

(** * The navigation helpers *)

(** ** Running a script step by step *)

Section ScriptRules.
Context {World : Type}.

Lemma yields_ret {A} (a : A) (Q : Outcome A -> list Event -> Prop) :
  Q (Returned a) [] -> yields (@ret World A a) Q.
Proof. intros HQ w log. exists []. by rewrite app_nil_r. Qed.

Lemma yields_raise {A} exception (Q : Outcome A -> list Event -> Prop) :
  Q (Raised exception) [] -> yields (@raise World A exception) Q.
Proof. intros HQ w log. exists []. by rewrite app_nil_r. Qed.

Lemma yields_call {A} (f : World -> World * Outcome A) event
    (Q : Outcome A -> list Event -> Prop) :
  (forall r, Q r [event r]) -> yields (call f event) Q.
Proof.
  intros HQ w log. unfold call; simpl.
  destruct (f w) as [w' r]. simpl. by exists [event r].
Qed.

Lemma yields_say msg (Q : Outcome unit -> list Event -> Prop) :
  Q (Returned tt) [Printed msg] -> yields (@say World msg) Q.
Proof. intros HQ w log. by exists [Printed msg]. Qed.

Lemma yields_bind {A B} (c : Script World A) (k : A -> Script World B)
    (Q : Outcome B -> list Event -> Prop) :
  yields c (fun r evs1 =>
              match r with
              | Returned a => yields (k a) (fun r2 evs2 => Q r2 (evs1 ++ evs2))
              | Raised exception => Q (Raised exception) evs1
              end) ->
  yields (bind c k) Q.
Proof.
  intros Hc w log. unfold bind.
  destruct (Hc w log) as (evs1 & Hlog & HQ).
  destruct (c (w, log)) as [[w1 log1] [a|exception]]; simpl in *; subst log1.
  - destruct (HQ w1 (log ++ evs1)) as (evs2 & Hlog2 & HQ2).
    exists (evs1 ++ evs2). by rewrite app_assoc.
  - by exists evs1.
Qed.

Lemma yields_attempt {A} (body handler : Script World A)
    (Q : Outcome A -> list Event -> Prop) :
  yields body (fun r evs1 =>
                 match r with
                 | Returned a => Q (Returned a) evs1
                 | Raised _ =>
                     yields handler (fun r2 evs2 => Q r2 (evs1 ++ evs2))
                 end) ->
  yields (attempt body handler) Q.
Proof.
  intros Hb w log. unfold attempt.
  destruct (Hb w log) as (evs1 & Hlog & HQ).
  destruct (body (w, log)) as [[w1 log1] [a|exception]]; simpl in *; subst log1.
  - by exists evs1.
  - destruct (HQ w1 (log ++ evs1)) as (evs2 & Hlog2 & HQ2).
    exists (evs1 ++ evs2). by rewrite app_assoc.
Qed.

Lemma yields_conseq {A} (c : Script World A)
    (Q Q' : Outcome A -> list Event -> Prop) :
  yields c Q -> (forall r evs, Q r evs -> Q' r evs) -> yields c Q'.
Proof.
  intros Hc Himp w log. destruct (Hc w log) as (evs & ? & ?).
  exists evs. auto.
Qed.

End ScriptRules.

Lemma each_justified_weaken J a b a' b' evs :
  looks_back J ->
  each_justified J a b evs ->
  (a = None \/ a = a') -> (b = None \/ b = b') ->
  each_justified J a' b' evs.
Proof.
  intros HJ. revert a b a' b'.
  induction evs as [|ev evs IH]; intros a b a' b' Hevs Ha Hb; [done|].
  destruct Hevs as [Hev Hrest]. split.
  - by apply (HJ a b).
  - apply (IH b (Some ev)); [done|done|by right].
Qed.

Lemma each_justified_app J a b evs1 evs2 :
  looks_back J ->
  each_justified J a b evs1 ->
  each_justified J None None evs2 ->
  each_justified J a b (evs1 ++ evs2).
Proof.
  intros HJ. revert a b.
  induction evs1 as [|ev evs1 IH]; intros a b H1 H2; simpl.
  - apply (each_justified_weaken J None None); auto.
  - destruct H1 as [Hev Hrest]. split; [done|]. by apply IH.
Qed.

(** Symbolic execution of a script, up to the loops it calls. *)
Ltac run_script :=
  repeat first
    [ match goal with
      | |- yields (ret _) _ => apply yields_ret
      | |- yields (raise _) _ => apply yields_raise
      | |- yields (say _) _ => apply yields_say
      | |- yields (bind _ _) _ => apply yields_bind
      | |- yields (attempt _ _) _ => apply yields_attempt
      | |- yields (call _ _) _ =>
          apply yields_call; let r := fresh "r" in intros r; destruct r
      | |- yields (query_selector _ _) _ => unfold query_selector
      | |- yields (query_selector_all _ _) _ => unfold query_selector_all
      | |- yields (is_visible _ _) _ => unfold is_visible
      | |- yields (is_enabled _ _) _ => unfold is_enabled
      | |- yields (inner_text _ _) _ => unfold inner_text
      | |- yields (handle_click _ _) _ => unfold handle_click
      | |- yields (handle_fill _ _ _) _ => unfold handle_fill
      | |- yields (wait_for_timeout _ _) _ => unfold wait_for_timeout
      | |- yields (wait_for_selector _ _ _) _ => unfold wait_for_selector
      | |- yields (goto _ _) _ => unfold goto
      | |- yields (page_fill _ _ _) _ => unfold page_fill
      | |- yields (page_click _ _) _ => unfold page_click
      | |- yields (if found ?o then _ else _) _ => destruct o; cbn [found]
      | |- yields (if ?b then _ else _) _ =>
          let H := fresh "Hif" in destruct b eqn:H
      | |- yields (match ?o with Some _ => _ | None => _ end) _ => destruct o
      | u : unit |- _ => destruct u
      end
    | progress cbn [app found] ].

Section NavigationFacts.
Context {World : Type} (browser : Browser World).

Lemma is_logged_in_spec :
  yields (is_logged_in browser)
    (fun r evs =>
       exists b,
         r = Returned b
         /\ Forall is_lookup evs
         /\ (length evs <= 4)%nat
         /\ (b = true ->
             exists h,
               last evs = Some (Queried "text=Launch Challenge"
                                        (Returned (Some h)))
               \/ last evs = Some (Queried "text=Logout" (Returned (Some h))))
         /\ (forall h,
               Queried email_input (Returned (Some h)) ∈ evs
               \/ Queried "text=Sign in" (Returned (Some h)) ∈ evs ->
               b = false)).
Proof.
  unfold is_logged_in. run_script.
  all: eexists; split; [reflexivity|].
  all: split; [repeat constructor|]. 
  all: split; [simpl; lia|].
  all: split; [first [discriminate | intros _; eexists; simpl; eauto]|].
  all: try done.
  all: intros h' [Hin|Hin]; exfalso;
    repeat (apply elem_of_cons in Hin as [Hin|Hin];
            [by vm_compute in Hin|]);
    by apply elem_of_nil in Hin.
Qed.


Lemma each_justified_impl (J J' : option Event -> option Event -> Event -> Prop)
    a b evs :
  (forall x y ev, J x y ev -> J' x y ev) ->
  each_justified J a b evs -> each_justified J' a b evs.
Proof.
  intros Himp. revert a b. induction evs as [|ev evs IH]; intros a b; [done|].
  intros [Hev Hrest]. split; [by apply Himp|by apply IH].
Qed.

Ltac looks_back_tac :=
  intros a b a' b' ev HJ Ha Hb; destruct ev; simpl in *; try done;
  repeat match goal with
         | H : _ /\ _ |- _ => destruct H
         | H : exists _, _ |- _ => destruct H
         | H : _ \/ _ |- _ => destruct H
         end;
  subst; try congruence;
  repeat match goal with
         | H : None = _ \/ _ |- _ => destruct H as [H|H]; [|subst]
         | H : Some _ = None \/ _ |- _ => destruct H as [H|H]; [discriminate|subst]
         end;
  eauto 10.

Lemma checked_click_looks_back : looks_back checked_click.
Proof. looks_back_tac. Qed.

Lemma sensible_step_looks_back : looks_back sensible_step.
Proof. looks_back_tac. Qed.

Lemma probe_looks_back : looks_back probe.
Proof. looks_back_tac. Qed.

Lemma login_event_looks_back email password target :
  looks_back (login_event email password target).
Proof. looks_back_tac. Qed.

Lemma yields_returned {A} (c : Script World A) (P : A -> list Event -> Prop) :
  yields c (fun r evs => exists a, r = Returned a /\ P a evs) ->
  forall w log,
    exists w' evs a, c (w, log) = ((w', log ++ evs), Returned a) /\ P a evs.
Proof.
  intros H w log. destruct (H w log) as (evs & Hlog & a & Hr & HP).
  destruct (c (w, log)) as [[w' log'] r]; simpl in *; subst. eauto.
Qed.

(** X15: [is_logged_in] never raises and only looks things up, at most four
    times; it answers True only when the last thing it looked up, and
    found, was the "Launch Challenge" text or the "Logout" text; and it
    answers False whenever it found an e-mail input or a "Sign in" text. *)
Theorem is_logged_in_only_looks w log :
  exists w' evs b,
    is_logged_in browser (w, log) = ((w', log ++ evs), Returned b)
    /\ Forall is_lookup evs
    /\ (length evs <= 4)%nat
    /\ (b = true ->
        exists h,
          last evs = Some (Queried "text=Launch Challenge" (Returned (Some h)))
          \/ last evs = Some (Queried "text=Logout" (Returned (Some h))))
    /\ (forall h,
          Queried email_input (Returned (Some h)) ∈ evs
          \/ Queried "text=Sign in" (Returned (Some h)) ∈ evs ->
          b = false).
Proof. apply yields_returned, is_logged_in_spec. Qed.

(** ** Clicking a button by its text *)

Lemma click_outcome_app b evs1 evs2 :
  click_outcome false evs1 -> click_outcome b evs2 ->
  click_outcome b (evs1 ++ evs2).
Proof.
  intros (Hj1 & Hb1 & _) (Hj2 & Hb2 & Hc2). split; [|split].
  - apply each_justified_app; auto using checked_click_looks_back.
  - rewrite last_app. destruct (last evs2) as [ev|] eqn:Hlast; [done|].
    split; intros H; [apply Hb2 in H|apply Hb1 in H]; discriminate.
  - intros Hb. destruct (Hc2 Hb) as [h Hin]. exists h.
    apply elem_of_app. by right.
Qed.

Lemma try_selector_spec sel :
  yields (try_selector browser sel)
         (fun r evs => exists b, r = Returned b /\ click_outcome b evs).
Proof.
  unfold try_selector. run_script.
  all: eexists; split; [reflexivity|].
  all: split; [simpl; eauto 10|].
  all: split; [simpl; split; first [done | congruence]|].
  all: first [discriminate | intros _; eexists; simpl;
              repeat first [apply list_elem_of_here | apply list_elem_of_further]].
Qed.

Lemma try_selectors_spec sels :
  yields (try_selectors browser sels)
         (fun r evs => exists b, r = Returned b /\ click_outcome b evs).
Proof.
  induction sels as [|sel rest IH]; cbn [try_selectors].
  - apply yields_ret. exists false. split; [done|].
    split; [done|]. split; [split|]; discriminate.
  - apply yields_bind. eapply yields_conseq; [apply try_selector_spec|].
    intros r evs1 ([|] & -> & H1).
    + apply yields_ret. rewrite app_nil_r. by exists true.
    + eapply yields_conseq; [apply IH|].
      intros r2 evs2 (b & -> & H2). exists b. split; [done|].
      by apply click_outcome_app.
Qed.

Lemma click_button_by_text_spec texts :
  yields (click_button_by_text browser texts)
         (fun r evs => exists b, r = Returned b /\ click_outcome b evs).
Proof.
  induction texts as [|text rest IH]; cbn [click_button_by_text].
  - apply yields_ret. exists false. split; [done|].
    split; [done|]. split; [split|]; discriminate.
  - apply yields_bind. eapply yields_conseq; [apply try_selectors_spec|].
    intros r evs1 ([|] & -> & H1).
    + apply yields_ret. rewrite app_nil_r. by exists true.
    + eapply yields_conseq; [apply IH|].
      intros r2 evs2 (b & -> & H2). exists b. split; [done|].
      by apply click_outcome_app.
Qed.

(** X16: [click_button_by_text] never raises.  It only looks up, checks,
    clicks and waits; every click is on a handle it has, directly before,
    found visible and then enabled; every wait is the half second directly
    after a click that went through.  It answers True exactly when its last
    call is such a wait that went through, and then a click went through;
    with no texts it does nothing. *)
Theorem click_button_by_text_is_careful texts w log :
  exists w' evs b,
    click_button_by_text browser texts (w, log)
    = ((w', log ++ evs), Returned b)
    /\ each_justified checked_click None None evs
    /\ (b = true <-> last evs = Some (Waited 500 (Returned tt)))
    /\ (b = true -> exists h, Clicked h (Returned tt) ∈ evs)
    /\ (texts = [] -> evs = [] /\ b = false).
Proof.
  destruct (yields_returned _ _ (click_button_by_text_spec texts) w log)
    as (w' & evs & b & Hrun & Hj & Hb & Hc).
  exists w', evs, b.
  split; [done|]. split; [done|]. split; [done|]. split; [done|].
  intros ->. cbn [click_button_by_text] in Hrun. unfold ret in Hrun.
  injection Hrun as _ Hlog <-. split; [|done].
  apply (app_inv_head log). by rewrite app_nil_r.
Qed.


(** ** Finding the table *)

Lemma is_shown_spec sel :
  yields (is_shown browser sel)
    (fun r evs =>
       exists b,
         r = Returned b
         /\ each_justified probe None None evs
         /\ if b
            then exists h, evs = [Queried sel (Returned (Some h));
                                  CheckedVisible h (Returned true)]
            else forall h, CheckedVisible h (Returned true) ∉ evs).
Proof.
  unfold is_shown. run_script.
  all: eexists; split; [reflexivity|].
  all: split; [simpl; eauto 10|].
  all: try match goal with v : bool |- _ => destruct v end.
  all: first
    [ by eexists
    | intros h' Hin;
      repeat (apply elem_of_cons in Hin as [Hin|Hin]; [discriminate Hin|]);
      by apply elem_of_nil in Hin ].
Qed.

Lemma first_visible_spec sels :
  yields (first_visible browser sels)
         (fun r evs => exists hit, r = Returned hit /\ probe_outcome sels hit evs).
Proof.
  induction sels as [|sel rest IH]; cbn [first_visible].
  - apply yields_ret. exists None. split; [done|]. split; [done|].
    intros h Hin. by apply elem_of_nil in Hin.
  - apply yields_bind. eapply yields_conseq; [apply is_shown_spec|].
    intros r evs1 ([|] & -> & Hj1 & H1).
    + apply yields_ret. rewrite app_nil_r. exists (Some sel).
      split; [done|]. split; [done|]. split; [apply list_elem_of_here|].
      destruct H1 as [h ->]. by exists [], h.
    + eapply yields_conseq; [apply IH|].
      intros r2 evs2 (hit & -> & Hj2 & H2). exists hit. split; [done|]. split.
      * apply each_justified_app; auto using probe_looks_back.
      * destruct hit as [s|].
        -- destruct H2 as (Hin & pre & h & ->). split.
           ++ by apply list_elem_of_further.
           ++ exists (evs1 ++ pre), h. by rewrite app_assoc.
        -- intros h [Hin|Hin]%elem_of_app; [by apply (H1 h)|by apply (H2 h)].
Qed.

(** X17: [find_table_container] never raises and returns one of its three
    selectors.  It only looks up and checks the visibility of what it has
    just found.  Either its last two calls found the returned selector and
    found it visible, or nothing was found visible and it returns
    "table". *)
Theorem find_table_container_result w log :
  exists w' evs sel,
    find_table_container browser (w, log) = ((w', log ++ evs), Returned sel)
    /\ sel ∈ ["table"; "[role=table]"; "[role=grid]"]
    /\ each_justified probe None None evs
    /\ ((exists pre h,
           evs = pre ++ [Queried sel (Returned (Some h));
                         CheckedVisible h (Returned true)])
        \/ (sel = "table"
            /\ forall h, CheckedVisible h (Returned true) ∉ evs)).
Proof.
  apply yields_returned. unfold find_table_container.
  apply yields_bind. eapply yields_conseq; [apply first_visible_spec|].
  intros r evs (hit & -> & Hj & H). apply yields_ret. rewrite app_nil_r.
  destruct hit as [sel|]; simpl.
  - destruct H as [Hin Hlast]. exists sel. split; [done|].
    split; [done|]. split; [done|]. by left.
  - exists "table". split; [done|]. split; [apply list_elem_of_here|].
    split; [done|]. by right.
Qed.

(** ** Completing a step *)

Lemma checked_click_sensible a b ev : checked_click a b ev -> sensible_step a b ev.
Proof.
  destruct ev; simpl; try done.
  - by left.
  - intros [-> Hh]. right. split; [by left|done].
Qed.

Ltac justify :=
  cbn [each_justified sensible_step checked_click probe login_event];
  repeat split; eauto 10.

Lemma press_first_spec buttons :
  yields (press_first browser buttons)
    (fun r evs =>
       each_justified sensible_step None None evs
       /\ (r = Returned true -> exists h, Clicked h (Returned tt) ∈ evs)).
Proof.
  induction buttons as [|btn rest IH]; cbn [press_first].
  - apply yields_ret. split; [done|discriminate].
  - run_script.
    + split; [justify|]. intros _. exists btn.
      apply list_elem_of_further, list_elem_of_here.
    + split; [justify|]. intros _. exists btn.
      apply list_elem_of_further, list_elem_of_here.
    + split; [justify|discriminate].
    + eapply yields_conseq; [apply IH|].
      intros r evs [Hj Hc]. split.
      * apply (each_justified_app _ _ _ [_]);
          auto using sensible_step_looks_back. justify.
      * intros Hr. destruct (Hc Hr) as [h Hin]. exists h.
        by apply list_elem_of_further.
    + split; [justify|discriminate].
Qed.

Lemma click_option_spec option_texts :
  yields (click_option browser option_texts)
         (fun r evs => exists b, r = Returned b /\ click_outcome b evs).
Proof.
  unfold click_option.
  destruct option_texts as [[|text texts]|];
    [|apply click_button_by_text_spec|];
    (apply yields_ret; exists false; split; [done|];
     split; [done|]; split; [split|]; discriminate).
Qed.

Lemma click_any_button_spec :
  yields (click_any_button browser)
    (fun r evs =>
       exists b,
         r = Returned b
         /\ each_justified sensible_step None None evs
         /\ (b = true -> exists h, Clicked h (Returned tt) ∈ evs)).
Proof.
  unfold click_any_button. apply yields_attempt, yields_bind. run_script.
  - eapply yields_conseq; [apply press_first_spec|].
    intros [b|exception] evs [Hj Hc].
    + exists b. split; [done|]. split.
      * apply (each_justified_app _ _ _ [_]);
          auto using sensible_step_looks_back. justify.
      * intros ->. destruct (Hc eq_refl) as [h Hin]. exists h.
        by apply list_elem_of_further.
    + apply yields_ret. rewrite app_nil_r. exists false.
      split; [done|]. split; [|discriminate].
      apply (each_justified_app _ _ _ [_]);
        auto using sensible_step_looks_back. justify.
  - exists false. split; [done|]. split; [justify|discriminate].
Qed.

(** X18: [complete_step] raises only when its final wait of 800 ms raises,
    which is always its last call.  Every click is on a handle it has just
    found visible and enabled, or on a button whose text it has just read
    and found non-empty and free of the words next, back, cancel, skip,
    close and sign; it answers True only if some click went through. *)
Theorem complete_step_is_careful option_texts w log :
  exists w' evs r wait_result,
    complete_step browser option_texts (w, log) = ((w', log ++ evs), r)
    /\ each_justified sensible_step None None evs
    /\ last evs = Some (Waited 800 wait_result)
    /\ match r with
       | Returned b =>
           wait_result = Returned tt
           /\ (b = true -> exists h, Clicked h (Returned tt) ∈ evs)
       | Raised exception => wait_result = Raised exception
       end.
Proof.
  assert (Hspec : yields (complete_step browser option_texts)
            (fun r evs =>
               each_justified sensible_step None None evs
               /\ exists wait_result,
                    last evs = Some (Waited 800 wait_result)
                    /\ match r with
                       | Returned b =>
                           wait_result = Returned tt
                           /\ (b = true ->
                               exists h, Clicked h (Returned tt) ∈ evs)
                       | Raised exception => wait_result = Raised exception
                       end)).
  { unfold complete_step.
    apply yields_bind. eapply yields_conseq; [apply click_option_spec|].
    intros r1 evs1 (b1 & -> & Hj1 & _ & Hc1).
    apply (each_justified_impl _ sensible_step) in Hj1;
      [|apply checked_click_sensible].
    apply yields_bind.
    apply yields_conseq with
      (Q := fun r evs =>
              exists b, r = Returned b
                /\ each_justified sensible_step None None evs
                /\ (b = true ->
                    b1 = true \/ exists h, Clicked h (Returned tt) ∈ evs)).
    { destruct b1.
      - apply yields_ret. exists true. split; [done|]. split; [done|]. by left.
      - eapply yields_conseq; [apply click_any_button_spec|].
        intros r evs (b & -> & Hj & Hc). exists b. split; [done|].
        split; [done|]. intros Hb. right. by apply Hc. }
    intros r2 evs2 (b2 & -> & Hj2 & Hc2).
    apply yields_bind. eapply yields_conseq; [apply click_button_by_text_spec|].
    intros r3 evs3 (b3 & -> & Hj3 & _ & Hc3).
    apply (each_justified_impl _ sensible_step) in Hj3;
      [|apply checked_click_sensible].
    assert (Hj : each_justified sensible_step None None (evs1 ++ evs2 ++ evs3))
      by (repeat apply each_justified_app;
          auto using sensible_step_looks_back).
    assert (Hwait : forall wr,
              each_justified sensible_step None None
                (evs1 ++ evs2 ++ evs3 ++ [Waited 800 wr] ++ [])
              /\ last (evs1 ++ evs2 ++ evs3 ++ [Waited 800 wr] ++ [])
                 = Some (Waited 800 wr)).
    { intros wr. rewrite app_nil_r, !app_assoc. split; [|apply last_snoc].
      rewrite <- !app_assoc in *.
      replace (evs1 ++ evs2 ++ evs3 ++ [Waited 800 wr])
        with ((evs1 ++ evs2 ++ evs3) ++ [Waited 800 wr])
        by (by rewrite <- !app_assoc).
      apply each_justified_app; auto using sensible_step_looks_back.
      simpl. split; [by left|done]. }
    run_script.
    - destruct (Hwait (Returned tt)) as [Hjw Hlast].
      split; [done|]. exists (Returned tt). split; [done|]. split; [done|].
      intros Hb. apply orb_prop in Hb as [->| ->].
      + destruct (Hc2 eq_refl) as [->|[h Hin]].
        * destruct (Hc1 eq_refl) as [h Hin]. exists h.
          apply elem_of_app. by left.
        * exists h. apply elem_of_app. right. apply elem_of_app. by left.
      + destruct (Hc3 eq_refl) as [h Hin]. exists h.
        apply elem_of_app. right. apply elem_of_app. right.
        apply elem_of_app. by left.
    - destruct (Hwait (Raised exception)) as [Hjw Hlast].
      rewrite app_nil_r in *. split; [done|]. by exists (Raised exception). }
  destruct (Hspec w log) as (evs & Hlog & Hj & wr & Hlast & Hr).
  destruct (complete_step browser option_texts (w, log)) as [[w' log'] r].
  simpl in *. subst log'. by exists w', evs, r, wr.
Qed.

(** ** Logging in *)

Lemma each_justified_both J a b evs1 evs2 :
  looks_back J ->
  each_justified J None None evs1 ->
  each_justified J None None evs2 ->
  each_justified J a b (evs1 ++ evs2).
Proof.
  intros HJ H1 H2. apply (each_justified_weaken J None None); auto.
  by apply each_justified_app.
Qed.

Lemma lookups_justified (J : option Event -> option Event -> Event -> Prop)
    a b evs :
  (forall x y sel r, J x y (Queried sel r)) ->
  Forall is_lookup evs -> each_justified J a b evs.
Proof.
  intros HJ Hall. revert a b.
  induction Hall as [|ev evs Hev _ IH]; intros a b; [done|].
  split; [|apply IH]. by destruct ev.
Qed.

Section Login.
Variables (email password : string) (target : option string).

Lemma sign_in_via_spec sel :
  sel ∈ ["text=Sign in"; "text=Login"; "button[type=submit]"] ->
  yields (sign_in_via browser sel)
    (fun r evs =>
       exists b, r = Returned b
         /\ each_justified (login_event email password target) None None evs).
Proof.
  intros Hsel. unfold sign_in_via. run_script.
  all: eexists; split; [reflexivity|justify].
Qed.

Lemma submit_via_spec sel :
  sel ∈ ["text=Sign in"; "text=Login"; "button[type=submit]"] ->
  yields (submit_via browser sel)
    (fun r evs =>
       exists b, r = Returned b
         /\ each_justified (login_event email password target) None None evs).
Proof.
  intros Hsel. unfold submit_via. run_script.
  all: eexists; split; [reflexivity|justify].
Qed.

Lemma open_sign_in_spec sels :
  (forall s, s ∈ sels ->
     s ∈ ["text=Sign in"; "text=Login"; "button[type=submit]"]) ->
  yields (open_sign_in browser sels)
    (fun r evs =>
       exists u, r = Returned u
         /\ each_justified (login_event email password target) None None evs).
Proof.
  induction sels as [|sel rest IH]; intros Hsels; cbn [open_sign_in].
  - apply yields_ret. by exists tt.
  - apply yields_bind. eapply yields_conseq;
      [apply sign_in_via_spec, Hsels, list_elem_of_here|].
    intros r evs1 ([|] & -> & Hj1).
    + apply yields_ret. rewrite app_nil_r. by exists tt.
    + eapply yields_conseq;
        [apply IH; intros s Hs; by apply Hsels, list_elem_of_further|].
      intros r2 evs2 (u & -> & Hj2). exists u. split; [done|].
      apply each_justified_app; auto using login_event_looks_back.
Qed.

Lemma press_submit_spec sels :
  (forall s, s ∈ sels ->
     s ∈ ["text=Sign in"; "text=Login"; "button[type=submit]"]) ->
  yields (press_submit browser sels)
    (fun r evs =>
       exists u, r = Returned u
         /\ each_justified (login_event email password target) None None evs).
Proof.
  induction sels as [|sel rest IH]; intros Hsels; cbn [press_submit].
  - apply yields_ret. by exists tt.
  - apply yields_bind. eapply yields_conseq;
      [apply submit_via_spec, Hsels, list_elem_of_here|].
    intros r evs1 ([|] & -> & Hj1).
    + apply yields_ret. rewrite app_nil_r. by exists tt.
    + eapply yields_conseq;
        [apply IH; intros s Hs; by apply Hsels, list_elem_of_further|].
      intros r2 evs2 (u & -> & Hj2). exists u. split; [done|].
      apply each_justified_app; auto using login_event_looks_back.
Qed.

Lemma fill_form_spec :
  yields (fill_form browser email password)
    (fun _ evs => each_justified (login_event email password target)
                                 None None evs).
Proof.
  unfold fill_form. run_script.
  all: try (eapply yields_conseq;
            [apply press_submit_spec; intros s Hs;
             repeat (apply elem_of_cons in Hs as [->|Hs];
                     [repeat first [apply list_elem_of_here
                                   | apply list_elem_of_further]|]);
             by apply elem_of_nil in Hs|];
            intros r evs (u & -> & Hj); run_script).
  all: rewrite ?app_nil_r.
  all: cbn [each_justified login_event]; repeat split; eauto 10.
  all: try (apply each_justified_both;
            [apply login_event_looks_back|done|justify]).
Qed.

Lemma login_page_spec :
  yields (login_page browser email password target)
    (fun _ evs => each_justified (login_event email password target)
                                 None None evs).
Proof.
  unfold login_page. destruct target as [url|]; run_script.
  all: justify.
Qed.

End Login.

Lemma try_login_spec EMAIL PASSWORD TARGET_URL :
  unset EMAIL || unset PASSWORD = false ->
  yields (try_login browser EMAIL PASSWORD TARGET_URL)
    (fun r evs =>
       exists b,
         r = Returned b
         /\ each_justified (login_event (default "" EMAIL) (default "" PASSWORD)
                                        TARGET_URL) None None evs
         /\ (b = true ->
             exists h,
               last evs = Some (Queried "text=Launch Challenge"
                                        (Returned (Some h)))
               \/ last evs = Some (Queried "text=Logout" (Returned (Some h))))).
Proof.
  intros Hset. unfold try_login. rewrite Hset.
  set (J := login_event (default "" EMAIL) (default "" PASSWORD) TARGET_URL).
  assert (HJ : looks_back J) by apply login_event_looks_back.
  apply yields_bind. eapply yields_conseq.
  { apply (open_sign_in_spec (default "" EMAIL) (default "" PASSWORD) TARGET_URL).
    intros s Hs. apply elem_of_cons in Hs as [->|Hs]; [apply list_elem_of_here|].
    apply elem_of_cons in Hs as [->|Hs];
      [apply list_elem_of_further, list_elem_of_here|].
    by apply elem_of_nil in Hs. }
  intros r1 evs1 (u1 & -> & Hj1). fold J in Hj1.
  apply yields_bind.
  apply yields_conseq with
    (Q := fun r evs => exists u, r = Returned u /\ each_justified J None None evs).
  { apply yields_attempt. eapply yields_conseq; [apply fill_form_spec|].
    intros [u|exception] evs Hj; [by exists u|].
    apply yields_attempt. eapply yields_conseq; [apply login_page_spec|].
    intros [u|exception2] evs2 Hj2.
    - exists u. split; [done|]. by apply each_justified_app.
    - apply yields_ret. rewrite app_nil_r. exists tt. split; [done|].
      by apply each_justified_app. }
  intros r2 evs2 (u2 & -> & Hj2).
  eapply yields_conseq; [apply is_logged_in_spec|].
  intros r3 evs3 (b & -> & Hlook & _ & Hlast & _).
  exists b. split; [done|]. split.
  - repeat apply each_justified_app; auto.
    apply lookups_justified; [done|done].
  - intros Hb. destruct (Hlast Hb) as [h Hh]. exists h.
    rewrite !last_app. by destruct Hh as [-> | ->]; [left|right].
Qed.

(** X19: [try_login] never raises.  Without an e-mail or a password it
    prints one line, leaves the browser alone and answers False.  Otherwise
    every click is on a handle just found by one of its sign-in or submit
    selectors; the e-mail is only typed into the field it waited for, or
    the e-mail input of the login page; the password only into the field
    just found by the password selector, or the password input of the login
    page; the only navigation is to the target's /login; and it answers
    True only when its last lookup found "Launch Challenge" or "Logout". *)
Theorem try_login_is_disciplined EMAIL PASSWORD TARGET_URL w log :
  exists w' evs b,
    try_login browser EMAIL PASSWORD TARGET_URL (w, log)
    = ((w', log ++ evs), Returned b)
    /\ each_justified (login_event (default "" EMAIL) (default "" PASSWORD)
                                   TARGET_URL) None None evs
    /\ (unset EMAIL || unset PASSWORD = true ->
        w' = w /\ evs = [Printed "Missing credentials"] /\ b = false)
    /\ (b = true ->
        exists h,
          last evs = Some (Queried "text=Launch Challenge" (Returned (Some h)))
          \/ last evs = Some (Queried "text=Logout" (Returned (Some h)))).
Proof.
  destruct (unset EMAIL || unset PASSWORD) eqn:Hset.
  - exists w, [Printed "Missing credentials"], false.
    unfold try_login. rewrite Hset.
    split; [reflexivity|]. split; [justify|]. split; [done|discriminate].
  - destruct (yields_returned _ _ (try_login_spec EMAIL PASSWORD TARGET_URL Hset)
                w log) as (w' & evs & b & Hrun & Hj & Hlast).
    exists w', evs, b. split; [done|]. split; [done|]. split; [discriminate|done].
Qed.

End NavigationFacts.

(** * What a run prints, and what a button label may contain *)

Section Output.
Variables (env : Env) (p : Page) (table_sel : string) (target_count : Z).

(** X13: what a run prints is the start line with the hint, one progress
    line for every 25 rounds run, the stopping line if and only if the run
    ended by exhaustion, and the completion line with the number of records
    returned and the number of rounds. *)
Theorem output_of_a_run :
  exists h ps,
    scroll_and_collect_all env p table_sel target_count = Some h
    /\ output h
       = StartingCollection target_count :: ps
         ++ match reason h with
            | Exhausted => [Stopping]
            | SafetyCeilingReached => []
            end
         ++ [CollectionComplete (length (returned h)) (rounds h)]
    /\ length ps = (rounds h / 25)%nat
    /\ Forall is_progress ps.
Proof.
  unfold scroll_and_collect_all.
  destruct (while_loop_result env table_sel target_count (S safety_ceiling)
              (enter env p table_sel target_count))
    as (st & why & m & Hrun & Hnb & Hcase);
    [change (attempts (enter env p table_sel target_count)) with O; lia ..|].
  change (attempts (enter env p table_sel target_count)) with O in Hcase.
  rewrite Hrun. cbn [fmap option_fmap option_map].
  assert (Hfold : forall n,
            state_after env table_sel target_count
                        (enter env p table_sel target_count) n
            = after_rounds env p table_sel target_count n) by done.
  setoid_rewrite Hfold in Hnb. rewrite !Hfold in Hcase. clear Hfold.
  destruct (printed_while_running env p table_sel target_count m Hnb) as (ps & Hps & Hlen & Hall).
  destruct Hcase as [(-> & Hb & -> & Hat & Hle)|(-> & -> & Hat)].
  - destruct (round_fields table_sel target_count
                (after_rounds env p table_sel target_count m))
      as (Hatt & _ & _ & _ & _ & _ & _ & Hpr).
    rewrite Hb, after_rounds_attempts, Hps in Hpr.
    rewrite after_rounds_attempts in Hatt.
    destruct (Nat.eqb (S m mod 25) 0) eqn:Hmod.
    + eexists _, (ps ++ [_]). split; [reflexivity|].
      cbn [finish output reason returned rounds].
      rewrite Hpr, Hatt. split; [by rewrite <- !app_assoc|].
      rewrite nat_div_25_step, Hmod, length_app, Hlen.
      split; [cbn [length]; lia|].
      apply Forall_app. split; [done|]. by repeat constructor.
    + eexists _, ps. split; [reflexivity|].
      cbn [finish output reason returned rounds].
      rewrite Hpr, Hatt. split; [by rewrite <- !app_assoc|].
      by rewrite nat_div_25_step, Hmod.
  - eexists _, ps. split; [reflexivity|].
    cbn [finish output reason returned rounds].
    rewrite Hps, after_rounds_attempts. by repeat split.
Qed.

End Output.

Lemma prefix_spec needle text :
  String.prefix needle text = true <-> exists post, text = needle +:+ post.
Proof.
  revert text. induction needle as [|c needle IH]; intros text.
  - split; [by exists text|by destruct text].
  - destruct text as [|d text]; simpl; [split; [done|by intros [post ?]]|].
    destruct (Ascii.ascii_dec c d) as [->|Hne].
    + rewrite IH. split; intros [post Hp]; exists post; [by rewrite Hp|].
      by injection Hp.
    + split; [done|]. intros [post Hp]. by injection Hp as -> _.
Qed.

(** [contains] is Python's [in] on strings: the needle occurs somewhere in
    the text. *)
Lemma contains_spec needle text :
  contains needle text = true
  <-> exists pre post, text = pre +:+ needle +:+ post.
Proof.
  induction text as [|c text IH]; cbn [contains].
  - rewrite orb_false_r, prefix_spec. split.
    + intros [post Hp]. by exists "", post.
    + intros ([|d pre] & post & Hp); [by exists post|done].
  - rewrite orb_true_iff, prefix_spec, IH. split.
    + intros [[post Hp]|(pre & post & Hp)]; [by exists "", post|].
      exists (String c pre), post. simpl. by rewrite Hp.
    + intros ([|d pre] & post & Hp); [left; by exists post|right].
      simpl in Hp. injection Hp as _ Hp. by exists pre, post.
Qed.

(** X14: a button label is pressable exactly when it is not empty and none
    of the words next, back, cancel, skip, close and sign occurs anywhere
    in it. *)
Theorem pressable_labels label :
  pressable label = true
  <-> label <> ""
      /\ forall word pre post,
           word ∈ avoided_words -> label <> pre +:+ word +:+ post.
Proof.
  unfold pressable.
  rewrite andb_true_iff, !negb_true_iff, String.eqb_neq.
  assert (Hnone : existsb (fun x => contains x label) avoided_words = false
                  <-> forall word pre post,
                        word ∈ avoided_words ->
                        label <> pre +:+ word +:+ post).
  { split.
    - intros Hex word pre post Hin Heq.
      assert (Hc : contains word label = true)
        by (apply contains_spec; by exists pre, post).
      assert (existsb (fun x => contains x label) avoided_words = true)
        by (apply existsb_exists; exists word; split;
            [by apply list_elem_of_In|done]).
      congruence.
    - intros Hno. apply not_true_is_false. intros Hex.
      apply existsb_exists in Hex as (word & Hin & Hc).
      apply contains_spec in Hc as (pre & post & Heq).
      apply (Hno word pre post); [by apply list_elem_of_In|done]. }
  by rewrite Hnone.
Qed.

(** On a page where nothing is found, the helpers fall through: the table
    selector is the fallback, no button is clicked, and the login check
    answers False after four lookups. *)
Example navigation_on_a_blank_page :
  find_table_container blank_browser (tt, [])
  = ((tt, [Queried "table" (Returned None);
           Queried "[role=table]" (Returned None);
           Queried "[role=grid]" (Returned None)]),
     Returned "table")
  /\ click_button_by_text blank_browser ["Next"] (tt, [])
     = ((tt, [Queried "text=/Next/i" (Returned None);
              Queried ("button:has-text(" +:+ dq +:+ "Next" +:+ dq +:+ ")")
                      (Returned None);
              Queried ("[role=button]:has-text(" +:+ dq +:+ "Next" +:+ dq +:+ ")")
                      (Returned None)]),
        Returned false)
  /\ snd (is_logged_in blank_browser (tt, [])) = Returned false
  /\ length (snd (fst (is_logged_in blank_browser (tt, [])))) = 4%nat
  /\ snd (complete_step blank_browser None (tt, [])) = Returned false
  /\ snd (try_login blank_browser (Some "a@b.c") None (Some "http://x/")
                    (tt, []))
     = Returned false.
Proof. repeat split; by vm_compute. Qed.
